(** * movies-backend: the torrent listing and range-streaming gateway

    A shallow embedding of the two versions of the gateway found in the
    repository,

    - [src/api/index.js]  (module [ApiIndex]) and
    - [src/unnamed/part_000], the ZIP-aware version (module [Part000]),

    and the properties of the natural-language specification checked
    against them.  Functions keep the names they have in the source. *)

From Stdlib Require Import ZArith Bool List Ascii String Lia.
Import ListNotations.

Open Scope string_scope.
Open Scope Z_scope.

(** ** JavaScript values used by the handlers *)

(** The numbers the model follows: the integers on which IEEE doubles are
    exact, and [NaN].  Where a handler computes with a number, the model
    has an [option JSNum]: [None] stands for a value it does not follow (a
    fraction, an infinity, an integer beyond 2^53 in magnitude, where
    doubles round). *)
Inductive JSNum : Type :=
| Num (z : Z)
| NaN.

(** An element taken out of an array by destructuring: absent positions
    give [undefined]. *)
Inductive JSVal : Type :=
| Undefined
| Val (n : JSNum).

(** The integers from -2^53 to 2^53: each is a double, and a sum or a
    difference of doubles that falls among them is computed exactly. *)
Definition is_safe (z : Z) : bool := (- 2 ^ 53 <=? z) && (z <=? 2 ^ 53).

Definition js_num (z : Z) : option JSNum :=
  if is_safe z then Some (Num z) else None.

(** [a + b], [a - b] and [Math.min(a, b)]: [NaN] is absorbing, a result
    outside the safe integers is not followed. *)
Definition js_add (a b : option JSNum) : option JSNum :=
  match a, b with
  | Some NaN, _ | _, Some NaN => Some NaN
  | Some (Num x), Some (Num y) => js_num (x + y)
  | _, _ => None
  end.

Definition js_sub (a b : option JSNum) : option JSNum :=
  match a, b with
  | Some NaN, _ | _, Some NaN => Some NaN
  | Some (Num x), Some (Num y) => js_num (x - y)
  | _, _ => None
  end.

Definition Math_min (a b : option JSNum) : option JSNum :=
  match a, b with
  | Some NaN, _ | _, Some NaN => Some NaN
  | Some (Num x), Some (Num y) => Some (Num (Z.min x y))
  | _, _ => None
  end.

(** ToBoolean on the values above: [undefined], [0] and [NaN] are falsy. *)
Definition truthy (v : JSVal) : bool :=
  match v with
  | Val (Num z) => negb (z =? 0)
  | _ => false
  end.

(** [v || d] for a numeric default [d]; of a value that is not followed
    the truth value is not known either. *)
Definition js_or (v : option JSVal) (d : option JSNum) : option JSNum :=
  match v with
  | Some (Val n) => if truthy (Val n) then Some n else d
  | Some Undefined => d
  | None => None
  end.

(** ** Strings *)

Definition in_range (lo hi c : ascii) : bool :=
  let n := nat_of_ascii c in
  (nat_of_ascii lo <=? n)%nat && (n <=? nat_of_ascii hi)%nat.

Definition is_digit (c : ascii) : bool := in_range "0" "9" c.

(** The character class [[a-fA-F0-9]]. *)
Definition is_hex (c : ascii) : bool :=
  in_range "a" "f" c || in_range "A" "F" c || in_range "0" "9" c.

Definition is_lower_hex (c : ascii) : bool :=
  in_range "a" "f" c || in_range "0" "9" c.

Fixpoint all_chars (p : ascii -> bool) (s : string) : bool :=
  match s with
  | EmptyString => true
  | String c s' => p c && all_chars p s'
  end.

Fixpoint any_char (p : ascii -> bool) (s : string) : bool :=
  match s with
  | EmptyString => false
  | String c s' => p c || any_char p s'
  end.

Definition lower_char (c : ascii) : ascii :=
  if in_range "A" "Z" c then ascii_of_nat (nat_of_ascii c + 32) else c.

(** [s.toLowerCase()] on the Latin letters. *)
Fixpoint toLowerCase (s : string) : string :=
  match s with
  | EmptyString => EmptyString
  | String c s' => String (lower_char c) (toLowerCase s')
  end.

(** [strip_prefix p s] is the rest of [s] after the literal [p], when [s]
    starts with [p]. *)
Fixpoint strip_prefix (p s : string) : option string :=
  match p with
  | EmptyString => Some s
  | String a p' =>
      match s with
      | EmptyString => None
      | String b s' => if Ascii.eqb a b then strip_prefix p' s' else None
      end
  end.

(** [split_at n s] cuts [s] after its first [n] characters, when it has
    that many. *)
Fixpoint split_at (n : nat) (s : string) : option (string * string) :=
  match n with
  | O => Some (EmptyString, s)
  | S n' =>
      match s with
      | EmptyString => None
      | String c s' =>
          match split_at n' s' with
          | Some (d, r) => Some (String c d, r)
          | None => None
          end
      end
  end.

(** ** [extractInfoHash] (both versions, identical text)

    [magnet.match(/urn:btih:([a-fA-F0-9]{40})/)]: the pattern is a literal
    followed by a fixed-length character class, so a match at a position is
    unique and the regular-expression engine returns the leftmost one. *)

(** The capture group of a match starting exactly at the head of [s]. *)
Definition match_here (s : string) : option string :=
  match strip_prefix "urn:btih:" s with
  | None => None
  | Some rest =>
      match split_at 40 rest with
      | Some (d, _) => if all_chars is_hex d then Some d else None
      | None => None
      end
  end.

(** The capture group of the leftmost match in [s]. *)
Fixpoint regex_match (s : string) : option string :=
  match match_here s with
  | Some d => Some d
  | None =>
      match s with
      | EmptyString => None
      | String _ s' => regex_match s'
      end
  end.

(** [null] is [None]. *)
Definition extractInfoHash (magnet : string) : option string :=
  match regex_match magnet with
  | Some d => Some (toLowerCase d)
  | None => None
  end.

(** ** The Range header: [range.replace(/bytes=/, '').split('-').map(Number)] *)

(** [s.replace(/bytes=/, '')] for a literal pattern [p]: the leftmost
    occurrence of [p] is removed. *)
Fixpoint remove_first (p s : string) : string :=
  match strip_prefix p s with
  | Some rest => rest
  | None =>
      match s with
      | EmptyString => EmptyString
      | String c s' => String c (remove_first p s')
      end
  end.

(** [s.split(sep)] for a one-character separator.  The result is never
    empty: it is given as its first element and the remaining ones. *)
Fixpoint split (sep : ascii) (s : string) : string * list string :=
  match s with
  | EmptyString => (EmptyString, [])
  | String c s' =>
      let (h, t) := split sep s' in
      if Ascii.eqb c sep then (EmptyString, h :: t) else (String c h, t)
  end.

(** White space of a header value (a Latin-1 string): TAB, LF, VT, FF, CR,
    SP and NBSP. *)
Definition is_space (c : ascii) : bool :=
  let n := nat_of_ascii c in
  ((9 <=? n) && (n <=? 13) || (n =? 32) || (n =? 160))%nat.

Definition digit_value (c : ascii) : Z :=
  Z.of_nat (nat_of_ascii c) - Z.of_nat (nat_of_ascii "0").

Fixpoint digits_value (acc : Z) (s : string) : Z :=
  match s with
  | EmptyString => acc
  | String c s' => digits_value (10 * acc + digit_value c) s'
  end.

(** [Number(s)], as far as the model follows it:
    - the empty string is [0];
    - a string of decimal digits whose value is at most 2^53 is that
      value (a larger one is rounded to a double by JavaScript);
    - a non-empty string with no decimal digit, no white space and no
      ['I'] is no numeric literal at all (every literal has a digit, is
      [Infinity] with a sign, or is blank), hence [NaN];
    - everything else (larger digit strings, a sign, a fraction, an
      exponent, a radix prefix, [Infinity], surrounding blanks, digits
      mixed with other characters) is not followed: [None]. *)
Definition Number (s : string) : option JSNum :=
  match s with
  | EmptyString => Some (Num 0)
  | _ =>
      if all_chars is_digit s then js_num (digits_value 0 s)
      else if any_char is_digit s || any_char is_space s
              || any_char (Ascii.eqb "I") s
      then None
      else Some NaN
  end.

(** [const [start, end] = ....map(Number)]: the start, and the end, which
    is [undefined] when the header has no dash. *)
Definition parse_range (range : string) : option JSNum * option JSVal :=
  let (first, more) := split "-" (remove_first "bytes=" range) in
  (Number first,
   match more with
   | [] => Some Undefined
   | second :: _ =>
       match Number second with
       | Some e => Some (Val e)
       | None => None
       end
   end).

(** [end || Math.min(start + 10 ** 6, fileSize - 1)] *)
Definition chunkEnd (start : option JSNum) (end_ : option JSVal) (fileSize : Z)
  : option JSNum :=
  js_or end_ (Math_min (js_add start (Some (Num (10 ^ 6))))
                       (js_sub (js_num fileSize) (Some (Num 1)))).

(** [chunkEnd - start + 1] *)
Definition contentLength (start : option JSNum) (end_ : option JSVal)
    (fileSize : Z) : option JSNum :=
  js_add (js_sub (chunkEnd start end_ fileSize) start) (Some (Num 1)).

(** ** [path.extname] (Node's library function, POSIX flavour)

    The state of the backwards scan of Node's implementation. *)
Record ExtScan : Type := mkExtScan {
  startDot : Z;
  startPart : Z;
  scan_end : Z;
  matchedSlash : bool;
  preDotState : Z
}.

(** [extname_loop path n st] runs the loop body for [i = n-1, ..., 0]. *)
Fixpoint extname_loop (path : string) (n : nat) (st : ExtScan) : ExtScan :=
  match n with
  | O => st
  | S i =>
      match String.get i path with
      | None => st
      | Some code =>
          if Ascii.eqb code "/" then
            if negb (matchedSlash st)
            then mkExtScan (startDot st) (Z.of_nat i + 1) (scan_end st)
                           (matchedSlash st) (preDotState st)
            else extname_loop path i st
          else
            let st1 :=
              if scan_end st =? -1
              then mkExtScan (startDot st) (startPart st) (Z.of_nat i + 1)
                             false (preDotState st)
              else st in
            let st2 :=
              if Ascii.eqb code "." then
                if startDot st1 =? -1
                then mkExtScan (Z.of_nat i) (startPart st1) (scan_end st1)
                               (matchedSlash st1) (preDotState st1)
                else if negb (preDotState st1 =? 1)
                then mkExtScan (startDot st1) (startPart st1) (scan_end st1)
                               (matchedSlash st1) 1
                else st1
              else if negb (startDot st1 =? -1)
              then mkExtScan (startDot st1) (startPart st1) (scan_end st1)
                             (matchedSlash st1) (-1)
              else st1 in
            extname_loop path i st2
      end
  end.

Definition extname (path : string) : string :=
  let st := extname_loop path (String.length path) (mkExtScan (-1) 0 (-1) true 0) in
  if (startDot st =? -1) || (scan_end st =? -1) || (preDotState st =? 0)
     || ((preDotState st =? 1) && (startDot st =? scan_end st - 1)
         && (startDot st =? startPart st + 1))
  then EmptyString
  else substring (Z.to_nat (startDot st))
                 (Z.to_nat (scan_end st - startDot st)) path.

(** [s.endsWith('/')] *)
Fixpoint endsWith_slash (s : string) : bool :=
  match s with
  | EmptyString => false
  | String c EmptyString => Ascii.eqb c "/"
  | String _ s' => endsWith_slash s'
  end.

(** [list.includes(ext)] *)
Definition includes (l : list string) (ext : string) : bool :=
  existsb (String.eqb ext) l.

(** ** Data model *)

(** The strings ['video'], ['image'], ['zip'] and ['other']. *)
Inductive FileType : Type := video | image | zip | other.

Definition FileType_eqb (a b : FileType) : bool :=
  match a, b with
  | video, video | image, image | zip, zip | other, other => true
  | _, _ => false
  end.

(** An entry of a yauzl archive. *)
Record ZipEntry : Type := mkZipEntry {
  fileName : string;
  uncompressedSize : Z
}.

(** How the events of an opened archive stop: ['end'], or an ['error']
    event raised while an entry is read. *)
Inductive ZipFinish : Type :=
| ZipEnd
| ZipError (err : string).

(** What comes of [zipFile.createReadStream((err, stream) => ...)] and of
    the [yauzl.fromBuffer] call inside the callback.
    - [NeverAnswered]: the callback is never called.  This is what the
      engine does whose [createReadStream] takes an options object and
      returns the stream, the way both [/stream] handlers call it.
    - [StreamErr]: the callback gets an error.
    - [StreamEmitsError]: the callback gets a stream, which emits
      ['error'] before its ['end'].
    - [FromBufferErr]: the [fromBuffer] callback gets an error.
    - [ZipOpened]: the archive is opened and emits its entries, one per
      [readEntry] call, and then stops. *)
Inductive ZipRead : Type :=
| NeverAnswered
| StreamErr (err : string)
| StreamEmitsError (err : string)
| FromBufferErr (err : string)
| ZipOpened (entries : list ZipEntry) (fin : ZipFinish).

(** A file handle of the swarm engine. *)
Record File : Type := mkFile {
  file_name : string;
  file_length : Z;
  file_path : string;
  file_zip : ZipRead
}.

Record Torrent : Type := mkTorrent {
  infoHash : string;
  files : list File
}.

(** The objects [{name, length, path, type}] of the catalog. *)
Record Entry : Type := mkEntry {
  e_name : string;
  e_length : Z;
  e_path : string;
  e_type : FileType
}.

(** The result of awaiting a promise.  [NeverSettled]: an exception was
    thrown outside the promise (an ['error'] event without listener), the
    promise stays pending.  [Pending]: nothing ever settles it. *)
Inductive Promise (A : Type) : Type :=
| Resolved (a : A)
| Rejected (err : string)
| NeverSettled (err : string)
| Pending.
Arguments Resolved {A} a.
Arguments Rejected {A} err.
Arguments NeverSettled {A} err.
Arguments Pending {A}.

(** [client.torrents.find(t => t.infoHash === infoHash)] *)
Definition find_torrent (torrents : list Torrent) (h : string) : option Torrent :=
  find (fun t => String.eqb (infoHash t) h) torrents.

(** [torrent.files.find(f => f.name === filename)] *)
Definition find_file (torrent : Torrent) (filename : string) : option File :=
  find (fun f => String.eqb (file_name f) filename) (files torrent).

(** ** Responses *)

(** What the [/list-files] handler does with the response object.
    [ListFailed]: the handler returned a promise that rejects; Express 5
    hands the rejection to its error handling, which answers 500. *)
Inductive NoResponse : Type :=
| JoinPending
| UnhandledRejection (err : string)
| UncaughtException (err : string)
| CatalogPending.

Inductive ListResponse : Type :=
| ListSend (status : Z) (body : string)
| ListJson (catalog : list Entry)
| ListNone (why : NoResponse)
| ListFailed (err : string).

(** The head written by [res.writeHead(206, ...)]; the Content-Range text
    is [bytes <cr_start>-<cr_end>/<cr_size>]. *)
Record Head206 : Type := mkHead206 {
  cr_start : option JSNum;
  cr_end : option JSNum;
  cr_size : Z;
  accept_ranges : string;
  content_length : option JSNum;
  content_type : string
}.

(** The listeners a handler registers on the read stream and on [res]. *)
Record Listeners : Type := mkListeners {
  on_stream_error : bool;   (* stream.on('error', ...) *)
  on_res_close : bool       (* res.on('close', () => stream.destroy()) *)
}.

(** What the [/stream] handler does with the response object. *)
Inductive StreamResponse : Type :=
| Send (status : Z) (body : string)
| PartialContent (head : Head206) (read_start read_end : option JSNum)
    (ls : Listeners)
| WholeFile (ctype : string) (ls : Listeners).

(** ** The life of a piped response

    [stream.pipe(res)] on the read stream of the engine, a streamx
    Readable: data of the read stream is written to the response, which
    sends the head with the first bytes if [writeHead] has not; when the
    response emits ['close'] before the read is done the pipe destroys the
    read stream, as the ['close'] listener of the ZIP-aware video branch
    does with [stream.destroy()]; a destroyed stream reads nothing
    more. *)

Inductive Event : Type :=
| SourceData (n : Z)   (* the engine delivers [n] more bytes to the read stream *)
| SourceError          (* the read stream emits 'error' *)
| SinkClose.           (* the client closes the connection: res emits 'close' *)

Record Live : Type := mkLive {
  headersSent : bool;
  destroyed : bool;        (* stream.destroy() was called *)
  sink_closed : bool;
  bytes_read : Z;          (* bytes read from the content source *)
  bytes_sent : Z;          (* bytes written to the response *)
  late_status : option Z;  (* status set by the error listener *)
  uncaught : bool          (* an 'error' event found no listener *)
}.

Definition step (ls : Listeners) (st : Live) (ev : Event) : Live :=
  match ev with
  | SourceData n =>
      if destroyed st then st
      else mkLive true (destroyed st) (sink_closed st)
                  (bytes_read st + n) (bytes_sent st + n)
                  (late_status st) (uncaught st)
  | SourceError =>
      if on_stream_error ls then
        if negb (headersSent st)
        then mkLive true (destroyed st) (sink_closed st) (bytes_read st)
                    (bytes_sent st) (Some 500) (uncaught st)
        else st
      else mkLive (headersSent st) (destroyed st) (sink_closed st) (bytes_read st)
                  (bytes_sent st) (late_status st) true
  | SinkClose =>
      (* [stream.destroy()], called by the ['close'] listener where there
         is one and by the pipe in every case *)
      mkLive (headersSent st) true true (bytes_read st) (bytes_sent st)
             (late_status st) (uncaught st)
  end.

Definition run (ls : Listeners) (st : Live) (evs : list Event) : Live :=
  fold_left (step ls) evs st.

(** The state right after the handler returned. *)
Definition start_of (r : StreamResponse) : option (Listeners * Live) :=
  match r with
  | Send _ _ => None
  | PartialContent _ _ _ ls => Some (ls, mkLive true false false 0 0 None false)
  | WholeFile _ ls => Some (ls, mkLive false false false 0 0 None false)
  end.

(** The part of both [/stream] handlers from the Range header on
    ([if (!range) ...] up to [createReadStream({start, end: chunkEnd})]),
    for a file of length [fileSize].  The empty string is falsy, like an
    absent header; every other header gets the 206 head. *)
Definition range_response (ls : Listeners) (fileSize : Z) (range : option string)
  : option StreamResponse :=
  match range with
  | None | Some EmptyString => Some (Send 400 "Requires Range header")
  | Some range =>
      let (start, end_) := parse_range range in
      let chunk := chunkEnd start end_ fileSize in
      Some (PartialContent
              (mkHead206 start chunk fileSize "bytes"
                         (contentLength start end_ fileSize) "video/mp4")
              start chunk ls)
  end.

(** ** [src/api/index.js] *)
Module ApiIndex.

Definition getFileType (fileName : string) : FileType :=
  let ext := toLowerCase (extname fileName) in
  if includes [".mp4"; ".mkv"; ".avi"] ext then video
  else if includes [".jpg"; ".jpeg"; ".png"; ".gif"] ext then image
  else other.

(** [torrent.files.map(...).filter(...)]; the promise always resolves. *)
Definition getFiles (torrent : Torrent) : Promise (list Entry) :=
  Resolved
    (filter (fun file => FileType_eqb (e_type file) video
                         || FileType_eqb (e_type file) image)
       (map (fun file => mkEntry (file_name file) (file_length file)
                           (file_path file) (getFileType (file_name file)))
          (files torrent))).

(** [return getFiles(existingTorrent).then((files) => res.json(files))]:
    the promise, which has no rejection handler, is returned to the
    framework. *)
Definition respond (p : Promise (list Entry)) : ListResponse :=
  match p with
  | Resolved l => ListJson l
  | Rejected err => ListFailed err
  | NeverSettled err => ListNone (UncaughtException err)
  | Pending => ListNone CatalogPending
  end.

(** [getFiles(torrent).then((files) => res.json(files))] inside the
    callback of [client.add]: the promise is dropped. *)
Definition respond_added (p : Promise (list Entry)) : ListResponse :=
  match p with
  | Resolved l => ListJson l
  | Rejected err => ListNone (UnhandledRejection err)
  | NeverSettled err => ListNone (UncaughtException err)
  | Pending => ListNone CatalogPending
  end.

(** [app.get('/list-files/:magnet', ...)].  [torrents] is
    [client.torrents]; [add magnet] is the torrent the engine passes to
    the callback of [client.add(magnet, cb)], if it ever does. *)
Definition list_files (torrents : list Torrent) (add : string -> option Torrent)
    (magnet : string) : ListResponse :=
  match extractInfoHash magnet with
  | None => ListSend 400 "Invalid magnet link"
  | Some h =>
      match find_torrent torrents h with
      | Some existingTorrent => respond (getFiles existingTorrent)
      | None =>
          match add magnet with
          | Some torrent => respond_added (getFiles torrent)
          | None => ListNone JoinPending
          end
      end
  end.

(** [app.get('/stream/:magnet/:filename', ...)]; [range] is
    [req.headers.range]. *)
Definition stream (torrents : list Torrent) (magnet filename : string)
    (range : option string) : option StreamResponse :=
  match extractInfoHash magnet with
  | None => Some (Send 400 "Invalid magnet link")
  | Some h =>
      match find_torrent torrents h with
      | None => Some (Send 404 "Torrent not found")
      | Some torrent =>
          match find_file torrent filename with
          | None => Some (Send 404 "File not found")
          | Some file =>
              range_response (mkListeners false false) (file_length file) range
          end
      end
  end.

End ApiIndex.

(** ** [src/unnamed/part_000], the ZIP-aware version *)
Module Part000.

Definition getFileType (fileName : string) : FileType :=
  let ext := toLowerCase (extname fileName) in
  if includes [".mp4"; ".mkv"; ".avi"] ext then video
  else if includes [".jpg"; ".jpeg"; ".png"; ".gif"] ext then image
  else if String.eqb ext ".zip" then zip
  else other.

(** The ['entry'] listener: what it leaves in [extractedFiles]. *)
Definition on_entry (zipFile : File) (extractedFiles : list Entry)
    (entry : ZipEntry) : list Entry :=
  if negb (endsWith_slash (fileName entry)) then
    let fileType := getFileType (fileName entry) in
    if FileType_eqb fileType video || FileType_eqb fileType image then
      extractedFiles ++
        [mkEntry (fileName entry) (uncompressedSize entry)
                 (file_path zipFile ++ "/" ++ fileName entry) fileType]
    else extractedFiles
  else extractedFiles.

(** The events of an opened archive: every [readEntry] call is answered
    by the next ['entry'], then by ['end'], which resolves the promise,
    or by an ['error'], for which no listener is registered (nor is one
    for the ['error'] of the read stream). *)
Fixpoint zip_events (zipFile : File) (entries : list ZipEntry) (fin : ZipFinish)
    (extractedFiles : list Entry) : Promise (list Entry) :=
  match entries with
  | [] =>
      match fin with
      | ZipEnd => Resolved extractedFiles
      | ZipError err => NeverSettled err
      end
  | entry :: rest =>
      zip_events zipFile rest fin (on_entry zipFile extractedFiles entry)
  end.

Definition extractZip (zipFile : File) : Promise (list Entry) :=
  match file_zip zipFile with
  | NeverAnswered => Pending
  | StreamErr err => Rejected err
  | StreamEmitsError err => NeverSettled err
  | FromBufferErr err => Rejected err
  | ZipOpened entries fin => zip_events zipFile entries fin []
  end.

(** The [for ... of] loop of [getFiles], [fileList] being its variable. *)
Fixpoint getFiles_loop (fs : list File) (fileList : list Entry)
  : Promise (list Entry) :=
  match fs with
  | [] => Resolved fileList
  | file :: rest =>
      if FileType_eqb (getFileType (file_name file)) zip then
        match extractZip file with
        | Resolved extractedFiles => getFiles_loop rest (fileList ++ extractedFiles)
        | Rejected err => Rejected err
        | NeverSettled err => NeverSettled err
        | Pending => Pending
        end
      else
        getFiles_loop rest
          (fileList ++ [mkEntry (file_name file) (file_length file)
                                (file_path file) (getFileType (file_name file))])
  end.

Definition getFiles (torrent : Torrent) : Promise (list Entry) :=
  getFiles_loop (files torrent) [].

Definition respond (p : Promise (list Entry)) : ListResponse :=
  match p with
  | Resolved l => ListJson l
  | Rejected err => ListFailed err
  | NeverSettled err => ListNone (UncaughtException err)
  | Pending => ListNone CatalogPending
  end.

Definition respond_added (p : Promise (list Entry)) : ListResponse :=
  match p with
  | Resolved l => ListJson l
  | Rejected err => ListNone (UnhandledRejection err)
  | NeverSettled err => ListNone (UncaughtException err)
  | Pending => ListNone CatalogPending
  end.

Definition list_files (torrents : list Torrent) (add : string -> option Torrent)
    (magnet : string) : ListResponse :=
  match extractInfoHash magnet with
  | None => ListSend 400 "Invalid magnet link"
  | Some h =>
      match find_torrent torrents h with
      | Some existingTorrent => respond (getFiles existingTorrent)
      | None =>
          match add magnet with
          | Some torrent => respond_added (getFiles torrent)
          | None => ListNone JoinPending
          end
      end
  end.

(** [`image/${path.extname(file.name).substring(1)}`] *)
Definition image_type (fileName : string) : string :=
  "image/" ++ match extname fileName with
              | EmptyString => EmptyString
              | String _ ext => ext
              end.

Definition stream (torrents : list Torrent) (magnet filename : string)
    (range : option string) : option StreamResponse :=
  match extractInfoHash magnet with
  | None => Some (Send 400 "Invalid magnet link")
  | Some h =>
      match find_torrent torrents h with
      | None => Some (Send 404 "Torrent not found")
      | Some torrent =>
          match find_file torrent filename with
          | None => Some (Send 404 "File not found")
          | Some file =>
              if FileType_eqb (getFileType (file_name file)) video then
                range_response (mkListeners true true) (file_length file) range
              else
                (* Serve images directly *)
                Some (WholeFile (image_type (file_name file))
                                (mkListeners false false))
          end
      end
  end.

End Part000.

(** ** Sample data *)

Definition hash40 : string := "0123456789abcdef0123456789abcdef01234567".
Definition magnet1 : string :=
  "magnet:?xt=urn:btih:0123456789ABCDEF0123456789abcdef01234567&dn=sample".

Definition plain (n : string) (len : Z) : File :=
  mkFile n len ("sample/" ++ n) (StreamErr "not an archive").

Definition movie : File := plain "movie.mp4" 5000000.
Definition poster : File := plain "poster.jpg" 20000.

Definition bundle : File :=
  mkFile "bundle.zip" 900 "sample/bundle.zip"
    (ZipOpened [mkZipEntry "movie.mp4" 700; mkZipEntry "extras/" 0;
                mkZipEntry "poster.jpg" 55; mkZipEntry "readme.md" 9] ZipEnd).

Definition session (fs : list File) : list Torrent := [mkTorrent hash40 fs].

(** The archive as the engine hands it over: its read is never answered. *)
Definition unanswered : File :=
  mkFile "bundle.zip" 900 "sample/bundle.zip" NeverAnswered.

Definition tiny : File := plain "tiny.mp4" 1.


(** ** The registry of the engine, as the [/list-files] handlers drive it

    Both handlers run without a break from [client.torrents.find] to
    [client.add]: requests that arrive together are handler runs one
    after the other.  The handlers keep no record of their own of the
    links they have passed to [client.add]; what a later run finds is
    what the engine has put on [client.torrents]. *)
Record Client : Type := mkClient {
  client_torrents : list Torrent;
  added : list string           (* the arguments of the [client.add] calls *)
}.

Inductive Resolution : Type :=
| BadMagnet                         (* 400 *)
| Existing (existingTorrent : Torrent)
| Joined (magnet : string).         (* waits for the callback of [client.add] *)

(** The engine, as far as the handlers depend on it: [engine magnet] is
    the info-hash under which the torrent made by [client.add(magnet, ...)]
    stands on [client.torrents] when the next request is handled, and
    [None] if no torrent of that call stands there with an info-hash. *)
Definition Engine : Type := string -> option string.

Definition registered (engine : Engine) (magnet : string) : list Torrent :=
  match engine magnet with
  | Some h => [mkTorrent h []]
  | None => []
  end.

(** One run of the handler up to the point where it answers or waits. *)
Definition resolve (engine : Engine) (c : Client) (magnet : string)
  : Resolution * Client :=
  match extractInfoHash magnet with
  | None => (BadMagnet, c)
  | Some h =>
      match find_torrent (client_torrents c) h with
      | Some existingTorrent => (Existing existingTorrent, c)
      | None =>
          (Joined magnet,
           mkClient (client_torrents c ++ registered engine magnet)
                    (added c ++ [magnet]))
      end
  end.

Fixpoint resolve_all (engine : Engine) (c : Client) (magnets : list string)
  : list Resolution * Client :=
  match magnets with
  | [] => ([], c)
  | magnet :: rest =>
      let (r, c1) := resolve engine c magnet in
      let (rs, c2) := resolve_all engine c1 rest in
      (r :: rs, c2)
  end.


(** ** Specification predicates *)

(** [magnet] reads [pre], then [urn:btih:], then the 40 hexadecimal digits
    [d], then [post]. *)
Definition btih_token_at (magnet pre d post : string) : Prop :=
  magnet = (pre ++ "urn:btih:" ++ d ++ post)%string
  /\ String.length d = 40%nat
  /\ all_chars is_hex d = true.

Definition has_btih_token (magnet : string) : Prop :=
  exists pre d post, btih_token_at magnet pre d post.

(** No token of [magnet] starts before the one after [pre]. *)
Definition leftmost_token (magnet pre : string) : Prop :=
  forall pre' d' post',
    btih_token_at magnet pre' d' post' ->
    (String.length pre <= String.length pre')%nat.

(** The stream request for [magnet] and [filename] finds [file]: the
    magnet link parses, its torrent is registered and holds a file of that
    name. *)
Definition resolves (torrents : list Torrent) (magnet filename : string)
    (file : File) : Prop :=
  exists h torrent,
    extractInfoHash magnet = Some h
    /\ find_torrent torrents h = Some torrent
    /\ find_file torrent filename = Some file.

(** The listing request for [magnet] gets to [torrent]: it is registered
    already, or the engine delivers it to the callback of [client.add]. *)
Definition lists (torrents : list Torrent) (add : string -> option Torrent)
    (magnet : string) (torrent : Torrent) : Prop :=
  exists h,
    extractInfoHash magnet = Some h
    /\ (find_torrent torrents h = Some torrent
        \/ (find_torrent torrents h = None /\ add magnet = Some torrent)).

(** The expander as the specification words it: the entries of the
    archive that are no directories and classify as video or image, each
    with its uncompressed size and the path [<archive path>/<entry name>]. *)
Definition is_media (t : FileType) : bool :=
  FileType_eqb t video || FileType_eqb t image.

Definition inner_media (entry : ZipEntry) : bool :=
  negb (endsWith_slash (fileName entry))
  && is_media (Part000.getFileType (fileName entry)).

Definition inner_entry (zipFile : File) (entry : ZipEntry) : Entry :=
  mkEntry (fileName entry) (uncompressedSize entry)
          (file_path zipFile ++ "/" ++ fileName entry)
          (Part000.getFileType (fileName entry)).

Definition expand_spec (zipFile : File) (entries : list ZipEntry) : list Entry :=
  map (inner_entry zipFile) (filter inner_media entries).

(** The state of a response after the events [evs]. *)
Definition play (r : option StreamResponse) (evs : list Event) : option Live :=
  match r with
  | Some r =>
      match start_of r with
      | Some (ls, st) => Some (run ls st evs)
      | None => None
      end
  | None => None
  end.

(** ** The movie list proxy of [src/api/index.js] *)
Module Movies.

(** A property of a movie object of the upstream API, as far as [&&]
    looks at it: objects and arrays are truthy whatever they hold. *)
Inductive JsField : Type :=
| FUndefined
| FNull
| FBool (b : bool)
| FNumber (n : JSNum)
| FString (s : string)
| FObject.

(** ToBoolean *)
Definition field_truthy (v : JsField) : bool :=
  match v with
  | FBool b => b
  | FNumber (Num z) => negb (z =? 0)
  | FString s => negb (String.eqb s "")
  | FObject => true
  | _ => false
  end.

(** A movie object: the three properties the filter reads, and the rest
    of the object. *)
Record Movie : Type := mkMovie {
  m_name : JsField;
  m_poster : JsField;
  m_rating : JsField;
  m_rest : string
}.

(** [movie => movie.name && movie.poster && movie.rating] *)
Definition keep_movie (movie : Movie) : bool :=
  field_truthy (m_name movie) && field_truthy (m_poster movie)
  && field_truthy (m_rating movie).

(** What one [axios.get] inside a [try] comes to: a body whose [data.data]
    is an array of movie objects, or an exception (a network error, a
    timeout, a status outside 2xx, a body on which [.data.data.filter]
    throws). *)
Inductive Reply : Type :=
| Body (data : list Movie)
| Throws (message : string).

(** The upstream API: the reply to a request, given how many requests
    were sent before it and its URL. *)
Definition Upstream : Type := nat -> string -> Reply.

(** The state of the service: the live entries of the NodeCache instance
    (an expired entry is an absent one) and the URLs requested so far,
    oldest first. *)
Record Svc : Type := mkSvc {
  cache : string -> option (list Movie);
  sent : list string
}.

Definition empty_svc : Svc := mkSvc (fun _ => None) [].

(** [cache.set(key, movies)] *)
Definition cache_set (c : string -> option (list Movie)) (key : string)
    (movies : list Movie) : string -> option (list Movie) :=
  fun k => if String.eqb k key then Some movies else c k.

Definition API_URL : string := "https://torrent-fast-api.onrender.com/api/v1".

Definition MAX_RETRIES : nat := 3.

(** [`${API_URL}/${endpoint}?site=yts&limit=50`] *)
Definition list_url (endpoint : string) : string :=
  API_URL ++ "/" ++ endpoint ++ "?site=yts&limit=50".

(** [await axios.get(url, { timeout: 15000 })] *)
Definition axios_get (net : Upstream) (url : string) (s : Svc) : Reply * Svc :=
  (net (List.length (sent s)) url, mkSvc (cache s) (sent s ++ [url])).

(** The [for] loop of [fetchMovies] with [retries] attempts left, and the
    [return cachedMovies || []] after it, reached only when nothing was
    cached. *)
Fixpoint fetch_attempts (net : Upstream) (retries : nat) (url cacheKey : string)
    (s : Svc) : list Movie * Svc :=
  match retries with
  | O => ([], s)
  | S retries' =>
      match axios_get net url s with
      | (Body data, s1) =>
          let movies := filter keep_movie data in
          (movies, mkSvc (cache_set (cache s1) cacheKey movies) (sent s1))
      | (Throws _, s1) => fetch_attempts net retries' url cacheKey s1
      end
  end.

Definition fetchMovies (net : Upstream) (endpoint cacheKey : string) (s : Svc)
  : list Movie * Svc :=
  match cache s cacheKey with
  | Some cachedMovies => (cachedMovies, s)
  | None =>
      fetch_attempts net MAX_RETRIES (list_url endpoint) cacheKey s
  end.

Definition refreshCache (net : Upstream) (s : Svc) : Svc :=
  let (_, s1) := fetchMovies net "trending" "trending_movies" s in
  let (_, s2) := fetchMovies net "recent" "recent_movies" s1 in
  s2.

(** [res.json(movies)], or [res.status(n).json({ error })]. *)
Inductive MovieResponse : Type :=
| MJson (movies : list Movie)
| MError (status : Z) (error : string).

(** [app.get("/movies/trending", ...)] *)
Definition movies_trending (net : Upstream) (s : Svc) : MovieResponse * Svc :=
  match cache s "trending_movies" with
  | Some movies => (MJson movies, s)
  | None =>
      let (movies, s1) := fetchMovies net "trending" "trending_movies" s in
      (MJson movies, s1)
  end.

(** [app.get("/movies/recent", ...)] *)
Definition movies_recent (net : Upstream) (s : Svc) : MovieResponse * Svc :=
  match cache s "recent_movies" with
  | Some movies => (MJson movies, s)
  | None =>
      let (movies, s1) := fetchMovies net "recent" "recent_movies" s in
      (MJson movies, s1)
  end.

(** [`search_${query}_${page}`]; [page] is the text of [page = 1]. *)
Definition page_text (page : option string) : string :=
  match page with
  | None => "1"
  | Some p => p
  end.

Definition search_key (query : string) (page : option string) : string :=
  "search_" ++ query ++ "_" ++ page_text page.

Definition search_url (query : string) (page : option string) : string :=
  API_URL ++ "/search?site=yts&query=" ++ query ++ "&limit=10&page="
  ++ page_text page.

(** [app.get("/movies/search", ...)]; [query] and [page] are the string
    parameters of [req.query], [None] when absent. *)
Definition movies_search (net : Upstream) (query page : option string) (s : Svc)
  : MovieResponse * Svc :=
  match query with
  | None | Some EmptyString => (MError 400 "Query is required!", s)
  | Some query =>
      let cacheKey := search_key query page in
      match cache s cacheKey with
      | Some cached => (MJson cached, s)
      | None =>
          match axios_get net (search_url query page) s with
          | (Body data, s1) =>
              let movies := filter keep_movie data in
              (MJson movies, mkSvc (cache_set (cache s1) cacheKey movies) (sent s1))
          | (Throws _, s1) => (MError 500 "Error fetching search results.", s1)
          end
      end
  end.

(** What reaches the service: the three routes, and the timer of
    [setInterval(refreshCache, ...)]. *)
Inductive Request : Type :=
| GetTrending
| GetRecent
| GetSearch (query page : option string)
| Tick.

Definition serve (net : Upstream) (r : Request) (s : Svc)
  : option MovieResponse * Svc :=
  match r with
  | GetTrending => let (a, s1) := movies_trending net s in (Some a, s1)
  | GetRecent => let (a, s1) := movies_recent net s in (Some a, s1)
  | GetSearch query page =>
      let (a, s1) := movies_search net query page s in (Some a, s1)
  | Tick => (None, refreshCache net s)
  end.

(** The responses to a sequence of requests served one after the other. *)
Fixpoint serve_all (net : Upstream) (rs : list Request) (s : Svc)
  : list (option MovieResponse) * Svc :=
  match rs with
  | [] => ([], s)
  | r :: rs' =>
      let (a, s1) := serve net r s in
      let (l, s2) := serve_all net rs' s1 in
      (a :: l, s2)
  end.

(** Every movie of a JSON response has a truthy name, poster and rating. *)
Definition complete_response (a : option MovieResponse) : Prop :=
  match a with
  | Some (MJson movies) => Forall (fun m => keep_movie m = true) movies
  | _ => True
  end.

(** Every cached list holds such movies only. *)
Definition cache_complete (s : Svc) : Prop :=
  forall key movies,
    cache s key = Some movies -> Forall (fun m => keep_movie m = true) movies.

End Movies.

(** Sample movies and a sample upstream: one timeout, then bodies. *)
Definition film : Movies.Movie :=
  Movies.mkMovie (Movies.FString "Film") (Movies.FString "film.jpg")
                 (Movies.FString "7.1") "{}".

Definition untitled : Movies.Movie :=
  Movies.mkMovie (Movies.FString "") (Movies.FString "x.jpg")
                 (Movies.FNumber (Num 5)) "{}".

Definition flaky : Movies.Upstream :=
  fun n _ => if (n <? 1)%nat then Movies.Throws "timeout of 15000ms exceeded"
             else Movies.Body [film; untitled].

Definition down : Movies.Upstream := fun _ _ => Movies.Throws "ECONNREFUSED".

(** The catalog of the ZIP-aware version, file by file and in one piece:
    a file that is no archive gives its own entry, an opened archive its
    inner media entries. *)
Definition top_entry (file : File) : Entry :=
  mkEntry (file_name file) (file_length file) (file_path file)
          (Part000.getFileType (file_name file)).

Definition catalog_of (file : File) : list Entry :=
  if FileType_eqb (Part000.getFileType (file_name file)) zip then
    match file_zip file with
    | ZipOpened entries ZipEnd => expand_spec file entries
    | _ => []
    end
  else [top_entry file].

(** The archive of [file] is read, opened and runs to its ['end']. *)
Definition expands (file : File) : Prop :=
  exists entries, file_zip file = ZipOpened entries ZipEnd.

(** Case analysis over the 256 characters. *)
Ltac by_ascii_cases c :=
  destruct c as [[] [] [] [] [] [] [] []]; vm_compute;
  let H := fresh "H" in intros H; first [reflexivity | discriminate H].

(** ** Strings: basic facts *)

Lemma append_nil_r (s : string) : (s ++ "")%string = s.
Proof. induction s as [|c s IH]; simpl; [reflexivity | now rewrite IH]. Qed.

Lemma append_assoc (a b c : string) :
  ((a ++ b) ++ c)%string = (a ++ (b ++ c))%string.
Proof. induction a as [|x a IH]; simpl; [reflexivity | now rewrite IH]. Qed.

Lemma length_append (a b : string) :
  String.length (a ++ b) = (String.length a + String.length b)%nat.
Proof. induction a as [|x a IH]; simpl; [reflexivity | now rewrite IH]. Qed.

Lemma append_same_length_inj (a b x y : string) :
  (a ++ x)%string = (b ++ y)%string ->
  String.length a = String.length b ->
  a = b /\ x = y.
Proof.
  revert b; induction a as [|c a IH]; intros [|c' b] E L; simpl in *;
    try discriminate.
  - now split.
  - injection E as -> E. injection L as L.
    destruct (IH b E L) as [-> ->]. now split.
Qed.

Lemma strip_prefix_spec (p s r : string) :
  strip_prefix p s = Some r <-> s = (p ++ r)%string.
Proof.
  revert s; induction p as [|a p IH]; intros s; simpl.
  - split; [now intros [= ->] | now intros ->].
  - destruct s as [|b s]; [split; discriminate|].
    destruct (Ascii.eqb_spec a b) as [->|N].
    + rewrite IH. split; [now intros -> | now intros [= ->]].
    + split; [discriminate | intros [= -> _]; now elim N].
Qed.

Lemma split_at_spec (n : nat) (s d r : string) :
  split_at n s = Some (d, r) <-> s = (d ++ r)%string /\ String.length d = n.
Proof.
  revert s d r; induction n as [|n IH]; intros s d r; simpl.
  - split.
    + intros [= <- <-]. now split.
    + intros [-> L]. destruct d; [reflexivity | discriminate].
  - destruct s as [|c s].
    + split; [discriminate|]. intros [E L]. destruct d; discriminate.
    + destruct (split_at n s) as [[d0 r0]|] eqn:E0.
      * apply IH in E0 as [-> L0]. split.
        -- intros [= <- <-]. simpl. now split; [|f_equal].
        -- intros [E L]. destruct d as [|c' d]; [discriminate|].
           simpl in E, L. injection E as <- E. injection L as L.
           rewrite <- L0 in L.
           destruct (append_same_length_inj _ _ _ _ E (eq_sym L)) as [-> ->].
           reflexivity.
      * split; [discriminate|]. intros [E L].
        destruct d as [|c' d]; [discriminate|].
        simpl in E, L. injection E as <- ->. injection L as L.
        assert (X : split_at n (d ++ r) = Some (d, r)) by (apply IH; now split).
        rewrite X in E0. discriminate.
Qed.

Lemma toLowerCase_length (s : string) :
  String.length (toLowerCase s) = String.length s.
Proof. induction s as [|c s IH]; simpl; [reflexivity | now rewrite IH]. Qed.

Lemma lower_char_hex (c : ascii) :
  is_hex c = true -> is_lower_hex (lower_char c) = true.
Proof. by_ascii_cases c. Qed.

Lemma toLowerCase_hex (s : string) :
  all_chars is_hex s = true -> all_chars is_lower_hex (toLowerCase s) = true.
Proof.
  induction s as [|c s IH]; simpl; [reflexivity|].
  intros H. apply andb_true_iff in H as [Hc Hs].
  now rewrite (lower_char_hex c Hc), (IH Hs).
Qed.

(** ** The magnet parser *)

Lemma match_here_spec (s d : string) :
  match_here s = Some d <-> exists post, btih_token_at s "" d post.
Proof.
  unfold match_here, btih_token_at. split.
  - destruct (strip_prefix "urn:btih:" s) as [rest|] eqn:P; [|discriminate].
    apply strip_prefix_spec in P.
    destruct (split_at 40 rest) as [[d0 r]|] eqn:S; [|discriminate].
    apply split_at_spec in S as [-> L].
    destruct (all_chars is_hex d0) eqn:H; [|discriminate].
    intros [= <-]. exists r. repeat split; assumption.
  - intros (post & E & L & H). simpl in E.
    assert (P : strip_prefix "urn:btih:" s = Some (d ++ post)%string)
      by (apply strip_prefix_spec; exact E).
    rewrite P.
    assert (S : split_at 40 (d ++ post) = Some (d, post))
      by (apply split_at_spec; now split).
    rewrite S, H. reflexivity.
Qed.

Lemma token_cons (c : ascii) (s pre d post : string) :
  btih_token_at s pre d post -> btih_token_at (String c s) (String c pre) d post.
Proof. intros (-> & L & H). repeat split; assumption. Qed.

Lemma token_uncons (c : ascii) (s pre d post : string) (c' : ascii) :
  btih_token_at (String c s) (String c' pre) d post -> btih_token_at s pre d post.
Proof. intros (E & L & H). simpl in E. injection E as _ ->. repeat split; assumption. Qed.

Lemma regex_match_eq (s : string) :
  regex_match s =
  match match_here s with
  | Some d => Some d
  | None => match s with
            | EmptyString => None
            | String _ s' => regex_match s'
            end
  end.
Proof. destruct s; reflexivity. Qed.

Lemma regex_match_sound (s d : string) :
  regex_match s = Some d ->
  exists pre post, btih_token_at s pre d post /\ leftmost_token s pre.
Proof.
  induction s as [|c s IH]; rewrite regex_match_eq.
  - discriminate.
  - destruct (match_here (String c s)) as [d0|] eqn:M.
    + intros [= ->]. apply match_here_spec in M as [post T].
      exists "", post. split; [exact T|]. intros ? ? ? _. apply Nat.le_0_l.
    + intros R. destruct (IH R) as (pre & post & T & Lm).
      exists (String c pre), post. split; [now apply token_cons|].
      intros [|c' pre'] d' post' T'.
      * assert (X : match_here (String c s) = Some d')
          by (apply match_here_spec; now exists post').
        rewrite X in M. discriminate.
      * simpl. apply le_n_S. apply (Lm pre' d' post').
        eapply token_uncons; exact T'.
Qed.

Lemma regex_match_complete (s pre d post : string) :
  btih_token_at s pre d post -> exists d0, regex_match s = Some d0.
Proof.
  revert s; induction pre as [|c pre IH]; intros s T.
  - assert (X : match_here s = Some d) by (apply match_here_spec; now exists post).
    rewrite regex_match_eq, X. now exists d.
  - destruct T as (-> & L & H). rewrite regex_match_eq.
    destruct (match_here _) as [d0|]; [now exists d0|]. simpl.
    apply IH. repeat split; assumption.
Qed.

Lemma regex_match_none (s : string) :
  regex_match s = None <-> ~ has_btih_token s.
Proof.
  split.
  - intros N (pre & d & post & T).
    destruct (regex_match_complete _ _ _ _ T) as [d0 E]. congruence.
  - intros N. destruct (regex_match s) as [d|] eqn:E; [|reflexivity].
    destruct (regex_match_sound _ _ E) as (pre & post & T & _).
    elim N. now exists pre, d, post.
Qed.

Lemma regex_match_leftmost (s pre d post : string) :
  btih_token_at s pre d post -> leftmost_token s pre -> regex_match s = Some d.
Proof.
  intros T Lm.
  destruct (regex_match_complete _ _ _ _ T) as [d0 E].
  destruct (regex_match_sound _ _ E) as (pre0 & post0 & T0 & Lm0).
  pose proof (Lm _ _ _ T0) as L1. pose proof (Lm0 _ _ _ T) as L2.
  destruct T as (E1 & Ld & _), T0 as (E2 & Ld0 & _).
  rewrite E1 in E2.
  destruct (append_same_length_inj _ _ _ _ E2 (Nat.le_antisymm _ _ L1 L2)) as [_ E3].
  apply (strip_prefix_spec "urn:btih:") in E3.
  simpl in E3. injection E3 as E3.
  destruct (append_same_length_inj _ _ _ _ E3 (eq_trans Ld (eq_sym Ld0))) as [-> _].
  exact E.
Qed.

Lemma extractInfoHash_None (magnet : string) :
  extractInfoHash magnet = None <-> regex_match magnet = None.
Proof.
  unfold extractInfoHash. destruct (regex_match magnet); split; congruence.
Qed.

Lemma invalid_magnet_400 (magnet : string) :
  extractInfoHash magnet = None ->
  forall torrents add filename range,
    ApiIndex.list_files torrents add magnet = ListSend 400 "Invalid magnet link"
    /\ Part000.list_files torrents add magnet = ListSend 400 "Invalid magnet link"
    /\ ApiIndex.stream torrents magnet filename range
       = Some (Send 400 "Invalid magnet link")
    /\ Part000.stream torrents magnet filename range
       = Some (Send 400 "Invalid magnet link").
Proof.
  intros N torrents add filename range.
  unfold ApiIndex.list_files, Part000.list_files, ApiIndex.stream, Part000.stream.
  rewrite N. repeat split.
Qed.

(** C3.  The magnet parser returns a value exactly when the string holds
    [urn:btih:] followed by 40 hexadecimal digits, whatever their case and
    whatever surrounds the token; the value is then the 40 digits of the
    leftmost such token in lower case; for every other string it returns
    [null], and all four handlers answer 400. *)
Theorem extractInfoHash_spec (magnet : string) :
  (forall h,
      extractInfoHash magnet = Some h <->
      exists pre d post,
        btih_token_at magnet pre d post /\ leftmost_token magnet pre
        /\ h = toLowerCase d)
  /\ (has_btih_token magnet <-> exists h, extractInfoHash magnet = Some h)
  /\ (forall h,
         extractInfoHash magnet = Some h ->
         String.length h = 40%nat /\ all_chars is_lower_hex h = true)
  /\ (extractInfoHash magnet = None <-> ~ has_btih_token magnet)
  /\ (~ has_btih_token magnet ->
      forall torrents add filename range,
        ApiIndex.list_files torrents add magnet = ListSend 400 "Invalid magnet link"
        /\ Part000.list_files torrents add magnet = ListSend 400 "Invalid magnet link"
        /\ ApiIndex.stream torrents magnet filename range
           = Some (Send 400 "Invalid magnet link")
        /\ Part000.stream torrents magnet filename range
           = Some (Send 400 "Invalid magnet link")).
Proof.
  assert (A : forall h,
             extractInfoHash magnet = Some h <->
             exists pre d post,
               btih_token_at magnet pre d post /\ leftmost_token magnet pre
               /\ h = toLowerCase d).
  { intros h. unfold extractInfoHash. split.
    - destruct (regex_match magnet) as [d|] eqn:E; [|discriminate].
      intros [= <-]. destruct (regex_match_sound _ _ E) as (pre & post & T & Lm).
      now exists pre, d, post.
    - intros (pre & d & post & T & Lm & ->).
      now rewrite (regex_match_leftmost _ _ _ _ T Lm). }
  assert (B : extractInfoHash magnet = None <-> ~ has_btih_token magnet).
  { rewrite extractInfoHash_None. apply regex_match_none. }
  split; [exact A|]. split; [|split; [|split; [exact B|]]].
  - split.
    + intros T. destruct (extractInfoHash magnet) as [h|] eqn:E; [now exists h|].
      elim (proj1 B eq_refl). exact T.
    + intros [h E]. apply A in E as (pre & d & post & T & _). now exists pre, d, post.
  - intros h E. apply A in E as (pre & d & post & (_ & L & H) & _ & ->).
    split; [now rewrite toLowerCase_length | now apply toLowerCase_hex].
  - intros N. apply invalid_magnet_400. now apply B.
Qed.

(** The parser on a magnet link with mixed-case digits and a trailing
    parameter, and on links without a usable token. *)
Lemma extractInfoHash_spec_witness :
  extractInfoHash magnet1 = Some hash40
  /\ String.length hash40 = 40%nat
  /\ extractInfoHash "magnet:?xt=urn:btih:0123456789abcdef&dn=short" = None
  /\ extractInfoHash "magnet:?xt=URN:BTIH:0123456789abcdef0123456789abcdef01234567" = None.
Proof.
  split; [|split; [|split]].
  - apply (proj1 (extractInfoHash_spec magnet1)).
    exists "magnet:?xt=", "0123456789ABCDEF0123456789abcdef01234567", "&dn=sample".
    split; [|split].
    + repeat split.
    + intros pre' d' post' (E & _ & _).
      destruct pre' as [|c pre']; [discriminate E|].
      do 10 (destruct pre' as [|? pre']; [discriminate E|]).
      simpl. lia.
    + reflexivity.
  - apply (proj2 (proj2 (extractInfoHash_spec magnet1))). reflexivity.
  - reflexivity.
  - reflexivity.
Defined.

(** ** The Range header *)

Lemma is_digit_not_dash (c : ascii) : is_digit c = true -> Ascii.eqb c "-" = false.
Proof. by_ascii_cases c. Qed.

Lemma split_digits (ds : string) :
  all_chars is_digit ds = true -> split "-" ds = (ds, []).
Proof.
  induction ds as [|c ds IH]; simpl; [reflexivity|].
  intros H. apply andb_true_iff in H as [Hc Hd].
  now rewrite (IH Hd), (is_digit_not_dash c Hc).
Qed.

Lemma split_digits_dash (ds rest : string) :
  all_chars is_digit ds = true ->
  split "-" (ds ++ String "-" rest)
  = (ds, fst (split "-" rest) :: snd (split "-" rest)).
Proof.
  induction ds as [|c ds IH]; simpl.
  - intros _. now destruct (split "-" rest).
  - intros H. apply andb_true_iff in H as [Hc Hd].
    now rewrite (IH Hd), (is_digit_not_dash c Hc).
Qed.

Lemma js_num_safe (z : Z) : - 2 ^ 53 <= z <= 2 ^ 53 -> js_num z = Some (Num z).
Proof.
  intros [L U]. unfold js_num, is_safe.
  destruct (Z.leb_spec (- 2 ^ 53) z); [|lia].
  destruct (Z.leb_spec z (2 ^ 53)); [reflexivity | lia].
Qed.

Lemma is_digit_value (c : ascii) : is_digit c = true -> 0 <= digit_value c.
Proof.
  destruct c as [[] [] [] [] [] [] [] []]; vm_compute; intros H;
    first [discriminate H | intros X; discriminate X].
Qed.

Lemma digits_value_nonneg (ds : string) :
  forall acc, all_chars is_digit ds = true -> 0 <= acc -> 0 <= digits_value acc ds.
Proof.
  induction ds as [|c ds IH]; intros acc H A; [exact A|].
  cbn [all_chars] in H. apply andb_true_iff in H as [Hc Hd].
  cbn [digits_value]. apply IH; [exact Hd|].
  pose proof (is_digit_value c Hc). lia.
Qed.

Lemma Number_digits (ds : string) :
  all_chars is_digit ds = true ->
  digits_value 0 ds <= 2 ^ 53 ->
  Number ds = Some (Num (digits_value 0 ds)).
Proof.
  intros H B. destruct ds as [|c ds]; [reflexivity|].
  unfold Number. rewrite H. apply js_num_safe. split; [|exact B].
  pose proof (digits_value_nonneg _ 0 H ltac:(lia)).
  change (2 ^ 53) with 9007199254740992. lia.
Qed.

(** [bytes=<digits>-]: the end position is the empty string, that is 0. *)
Lemma parse_open_range (ds : string) :
  all_chars is_digit ds = true ->
  digits_value 0 ds <= 2 ^ 53 ->
  parse_range ("bytes=" ++ ds ++ "-")
  = (Some (Num (digits_value 0 ds)), Some (Val (Num 0))).
Proof.
  intros H B. unfold parse_range.
  change (remove_first "bytes=" ("bytes=" ++ ds ++ "-")) with (ds ++ "-")%string.
  rewrite (split_digits_dash ds "" H). simpl fst; simpl snd.
  now rewrite (Number_digits ds H B).
Qed.

(** [bytes=<digits>]: no dash at all, the end position is [undefined]. *)
Lemma parse_dashless_range (ds : string) :
  all_chars is_digit ds = true ->
  digits_value 0 ds <= 2 ^ 53 ->
  parse_range ("bytes=" ++ ds) = (Some (Num (digits_value 0 ds)), Some Undefined).
Proof.
  intros H B. unfold parse_range.
  change (remove_first "bytes=" ("bytes=" ++ ds)) with ds.
  rewrite (split_digits ds H). now rewrite (Number_digits ds H B).
Qed.

(** [bytes=<digits>-<digits>] *)
Lemma parse_closed_range (ds de : string) :
  all_chars is_digit ds = true ->
  all_chars is_digit de = true ->
  digits_value 0 ds <= 2 ^ 53 ->
  digits_value 0 de <= 2 ^ 53 ->
  parse_range ("bytes=" ++ ds ++ "-" ++ de)
  = (Some (Num (digits_value 0 ds)), Some (Val (Num (digits_value 0 de)))).
Proof.
  intros Hs He Bs Be. unfold parse_range.
  change (remove_first "bytes=" ("bytes=" ++ ds ++ "-" ++ de))
    with (ds ++ String "-" de)%string.
  rewrite (split_digits_dash ds de Hs), (split_digits de He). simpl fst; simpl snd.
  now rewrite (Number_digits ds Hs Bs), (Number_digits de He Be).
Qed.

(** The end positions that are falsy: [undefined], [0] and [NaN]. *)
Lemma chunkEnd_falsy (start : option JSNum) (end_ : JSVal) (fileSize : Z) :
  truthy end_ = false ->
  chunkEnd start (Some end_) fileSize
  = Math_min (js_add start (Some (Num 1000000)))
             (js_sub (js_num fileSize) (Some (Num 1))).
Proof.
  intros F. unfold chunkEnd, js_or. destruct end_ as [|n]; [reflexivity|].
  now rewrite F.
Qed.

Lemma chunkEnd_truthy (start : option JSNum) (e : Z) (fileSize : Z) :
  e <> 0 -> chunkEnd start (Some (Val (Num e))) fileSize = Some (Num e).
Proof.
  intros N. unfold chunkEnd, js_or, truthy.
  destruct (Z.eqb_spec e 0); [contradiction | reflexivity].
Qed.

(** The default window on the safe integers. *)
Lemma default_window (s fileSize : Z) (end_ : JSVal) :
  truthy end_ = false ->
  0 <= s -> s + 1000000 <= 2 ^ 53 -> 0 <= fileSize <= 2 ^ 53 ->
  chunkEnd (Some (Num s)) (Some end_) fileSize
  = Some (Num (Z.min (s + 1000000) (fileSize - 1)))
  /\ contentLength (Some (Num s)) (Some end_) fileSize
     = Some (Num (Z.min (s + 1000000) (fileSize - 1) - s + 1)).
Proof.
  intros F S0 S1 L.
  change (2 ^ 53) with 9007199254740992 in S1, L.
  assert (C : chunkEnd (Some (Num s)) (Some end_) fileSize
              = Some (Num (Z.min (s + 1000000) (fileSize - 1)))).
  { rewrite (chunkEnd_falsy _ _ _ F). cbn [js_add js_sub].
    rewrite (js_num_safe fileSize) by (change (2 ^ 53) with 9007199254740992; lia).
    cbn [js_sub].
    rewrite !js_num_safe by (change (2 ^ 53) with 9007199254740992; lia).
    reflexivity. }
  split; [exact C|]. unfold contentLength. rewrite C. cbn [js_sub].
  rewrite js_num_safe by (change (2 ^ 53) with 9007199254740992; lia).
  cbn [js_add]. apply js_num_safe. change (2 ^ 53) with 9007199254740992. lia.
Qed.

Lemma range_response_parsed (ls : Listeners) (fileSize : Z) (range : string)
    (start : option JSNum) (end_ : option JSVal) :
  range <> EmptyString ->
  parse_range range = (start, end_) ->
  range_response ls fileSize (Some range)
  = Some (PartialContent
            (mkHead206 start (chunkEnd start end_ fileSize) fileSize "bytes"
                       (contentLength start end_ fileSize) "video/mp4")
            start (chunkEnd start end_ fileSize) ls).
Proof.
  intros N P. unfold range_response.
  destruct range as [|c range]; [contradiction|]. now rewrite P.
Qed.

Lemma bytes_nonempty (s : string) : ("bytes=" ++ s)%string <> EmptyString.
Proof. discriminate. Qed.

Lemma range_response_present (ls : Listeners) (fileSize : Z) (range : string)
    (r : StreamResponse) :
  range <> EmptyString ->
  range_response ls fileSize (Some range) = Some r ->
  exists head s e, r = PartialContent head s e ls.
Proof.
  intros N. unfold range_response.
  destruct range as [|c range]; [contradiction|].
  destruct (parse_range _) as [start end_].
  intros [= <-]. now eexists _, _, _.
Qed.

(** ** The stream handlers *)

Lemma ApiIndex_stream_resolved (torrents : list Torrent) (magnet filename : string)
    (file : File) (range : option string) :
  resolves torrents magnet filename file ->
  ApiIndex.stream torrents magnet filename range
  = range_response (mkListeners false false) (file_length file) range.
Proof.
  intros (h & torrent & E & T & F). unfold ApiIndex.stream. now rewrite E, T, F.
Qed.

Lemma Part000_stream_video (torrents : list Torrent) (magnet filename : string)
    (file : File) (range : option string) :
  resolves torrents magnet filename file ->
  Part000.getFileType (file_name file) = video ->
  Part000.stream torrents magnet filename range
  = range_response (mkListeners true true) (file_length file) range.
Proof.
  intros (h & torrent & E & T & F) V. unfold Part000.stream.
  now rewrite E, T, F, V.
Qed.

Lemma Part000_stream_other (torrents : list Torrent) (magnet filename : string)
    (file : File) (range : option string) :
  resolves torrents magnet filename file ->
  Part000.getFileType (file_name file) <> video ->
  Part000.stream torrents magnet filename range
  = Some (WholeFile (Part000.image_type (file_name file)) (mkListeners false false)).
Proof.
  intros (h & torrent & E & T & F) V. unfold Part000.stream.
  rewrite E, T, F. destruct (Part000.getFileType (file_name file)); try reflexivity.
  now elim V.
Qed.

Lemma movie_resolves : resolves (session [movie]) magnet1 "movie.mp4" movie.
Proof. exists hash40, (mkTorrent hash40 [movie]). now repeat split. Qed.

Lemma poster_resolves :
  resolves (session [movie; poster]) magnet1 "poster.jpg" poster.
Proof. exists hash40, (mkTorrent hash40 [movie; poster]). now repeat split. Qed.

Lemma tiny_resolves : resolves (session [tiny]) magnet1 "tiny.mp4" tiny.
Proof. exists hash40, (mkTorrent hash40 [tiny]). now repeat split. Qed.

Lemma movie_length_safe : 0 <= file_length movie <= 2 ^ 53.
Proof. split; vm_compute; discriminate. Qed.

Lemma open_range_response (ds : string) (fileSize : Z) (ls : Listeners) :
  all_chars is_digit ds = true ->
  digits_value 0 ds + 1000000 <= 2 ^ 53 ->
  0 <= fileSize <= 2 ^ 53 ->
  range_response ls fileSize (Some ("bytes=" ++ ds ++ "-"))
  = Some (PartialContent
            (mkHead206 (Some (Num (digits_value 0 ds)))
               (Some (Num (Z.min (digits_value 0 ds + 1000000) (fileSize - 1))))
               fileSize "bytes"
               (Some (Num (Z.min (digits_value 0 ds + 1000000) (fileSize - 1)
                           - digits_value 0 ds + 1)))
               "video/mp4")
            (Some (Num (digits_value 0 ds)))
            (Some (Num (Z.min (digits_value 0 ds + 1000000) (fileSize - 1)))) ls).
Proof.
  intros Hds Hs Hl.
  pose proof (digits_value_nonneg _ 0 Hds ltac:(lia)) as S0.
  rewrite (range_response_parsed ls fileSize _ _ _ (bytes_nonempty _)
             (parse_open_range ds Hds ltac:(lia))).
  destruct (default_window (digits_value 0 ds) fileSize (Val (Num 0)) eq_refl S0 Hs Hl)
    as [-> ->].
  reflexivity.
Qed.

Lemma dashless_range_response (ds : string) (fileSize : Z) (ls : Listeners) :
  all_chars is_digit ds = true ->
  digits_value 0 ds + 1000000 <= 2 ^ 53 ->
  0 <= fileSize <= 2 ^ 53 ->
  range_response ls fileSize (Some ("bytes=" ++ ds))
  = range_response ls fileSize (Some ("bytes=" ++ ds ++ "-")).
Proof.
  intros Hds Hs Hl. rewrite (open_range_response ds fileSize ls Hds Hs Hl).
  pose proof (digits_value_nonneg _ 0 Hds ltac:(lia)) as S0.
  rewrite (range_response_parsed ls fileSize _ _ _ (bytes_nonempty _)
             (parse_dashless_range ds Hds ltac:(lia))).
  destruct (default_window (digits_value 0 ds) fileSize Undefined eq_refl S0 Hs Hl)
    as [-> ->].
  reflexivity.
Qed.

Lemma zero_range_response (ds de : string) (fileSize : Z) (ls : Listeners) :
  all_chars is_digit ds = true ->
  all_chars is_digit de = true ->
  digits_value 0 de = 0 ->
  digits_value 0 ds + 1000000 <= 2 ^ 53 ->
  0 <= fileSize <= 2 ^ 53 ->
  range_response ls fileSize (Some ("bytes=" ++ ds ++ "-" ++ de))
  = range_response ls fileSize (Some ("bytes=" ++ ds ++ "-")).
Proof.
  intros Hds Hde Hzero Hs Hl. rewrite (open_range_response ds fileSize ls Hds Hs Hl).
  pose proof (digits_value_nonneg _ 0 Hds ltac:(lia)) as S0.
  rewrite (range_response_parsed ls fileSize _ _ _ (bytes_nonempty _)
             (parse_closed_range ds de Hds Hde ltac:(lia)
                ltac:(rewrite Hzero; change (2 ^ 53) with 9007199254740992; lia))).
  rewrite Hzero.
  destruct (default_window (digits_value 0 ds) fileSize (Val (Num 0)) eq_refl S0 Hs Hl)
    as [-> ->].
  reflexivity.
Qed.

(** C1, as the code has it.  For every stream request that finds its file,
    any file in [src/api/index.js] and a video file in the ZIP-aware
    version, and whose Range header omits the end position
    ([bytes=<start>-], or [bytes=<start>] without the dash), with
    [start + 1,000,000] and the file length among the integers up to 2^53,
    on which doubles are exact: the end used for the 206 response and for
    the read is [min(start + 1,000,000, length - 1)] and the
    Content-Length is that end minus [start] plus one, so the default
    window holds up to 1,000,001 bytes.  The same end is computed from any
    start, [NaN] included, whenever the end position is [undefined], [0]
    or [NaN]. *)
Theorem default_chunk_end (torrents : list Torrent) (magnet filename : string)
    (file : File) (ds : string)
    (Hres : resolves torrents magnet filename file)
    (Hds : all_chars is_digit ds = true)
    (Hstart : digits_value 0 ds + 1000000 <= 2 ^ 53)
    (Hlen : 0 <= file_length file <= 2 ^ 53) :
  let start := digits_value 0 ds in
  let chunk := Z.min (start + 1000000) (file_length file - 1) in
  let head := mkHead206 (Some (Num start)) (Some (Num chunk)) (file_length file)
                        "bytes" (Some (Num (chunk - start + 1))) "video/mp4" in
  ApiIndex.stream torrents magnet filename (Some ("bytes=" ++ ds ++ "-"))
  = Some (PartialContent head (Some (Num start)) (Some (Num chunk))
            (mkListeners false false))
  /\ (Part000.getFileType (file_name file) = video ->
      Part000.stream torrents magnet filename (Some ("bytes=" ++ ds ++ "-"))
      = Some (PartialContent head (Some (Num start)) (Some (Num chunk))
                (mkListeners true true)))
  /\ ApiIndex.stream torrents magnet filename (Some ("bytes=" ++ ds))
     = Some (PartialContent head (Some (Num start)) (Some (Num chunk))
               (mkListeners false false))
  /\ (Part000.getFileType (file_name file) = video ->
      Part000.stream torrents magnet filename (Some ("bytes=" ++ ds))
      = Some (PartialContent head (Some (Num start)) (Some (Num chunk))
                (mkListeners true true)))
  /\ (forall (s : option JSNum) (e : JSVal),
         truthy e = false ->
         chunkEnd s (Some e) (file_length file)
         = Math_min (js_add s (Some (Num 1000000)))
                    (js_sub (js_num (file_length file)) (Some (Num 1)))).
Proof.
  intros start chunk head.
  split; [|split; [|split; [|split]]].
  - rewrite (ApiIndex_stream_resolved _ _ _ _ _ Hres).
    now apply open_range_response.
  - intros V. rewrite (Part000_stream_video _ _ _ _ _ Hres V).
    now apply open_range_response.
  - rewrite (ApiIndex_stream_resolved _ _ _ _ _ Hres).
    rewrite dashless_range_response by assumption. now apply open_range_response.
  - intros V. rewrite (Part000_stream_video _ _ _ _ _ Hres V).
    rewrite dashless_range_response by assumption. now apply open_range_response.
  - intros s e F. now apply chunkEnd_falsy.
Qed.

(** A file of 5,000,000 bytes: [bytes=0-] ends at 1,000,000 with
    Content-Length 1,000,001, and [bytes=4999000-] is clamped to 4,999,999. *)
Lemma default_chunk_end_witness :
  ApiIndex.stream (session [movie]) magnet1 "movie.mp4" (Some "bytes=0-")
  = Some (PartialContent
            (mkHead206 (Some (Num 0)) (Some (Num 1000000)) 5000000 "bytes"
                       (Some (Num 1000001)) "video/mp4")
            (Some (Num 0)) (Some (Num 1000000)) (mkListeners false false))
  /\ Part000.stream (session [movie]) magnet1 "movie.mp4" (Some "bytes=4999000-")
     = Some (PartialContent
               (mkHead206 (Some (Num 4999000)) (Some (Num 4999999)) 5000000 "bytes"
                          (Some (Num 1000)) "video/mp4")
               (Some (Num 4999000)) (Some (Num 4999999)) (mkListeners true true)).
Proof.
  assert (B0 : digits_value 0 "0" + 1000000 <= 2 ^ 53)
    by (vm_compute; discriminate).
  assert (B1 : digits_value 0 "4999000" + 1000000 <= 2 ^ 53)
    by (vm_compute; discriminate).
  split.
  - exact (proj1 (default_chunk_end (session [movie]) magnet1 "movie.mp4" movie "0"
                    movie_resolves eq_refl B0 movie_length_safe)).
  - exact (proj1 (proj2 (default_chunk_end (session [movie]) magnet1 "movie.mp4"
                           movie "4999000" movie_resolves eq_refl B1
                           movie_length_safe)) eq_refl).
Defined.

(** C1 as the specification states it fails: for [bytes=0-] on a file of
    5,000,000 bytes the end is not [min(0 + 1,000,000 - 1, 5,000,000 - 1)],
    that is 999,999, and the Content-Length is not 1,000,000. *)
Lemma default_chunk_end_is_not_999999 :
  exists head e ls,
    ApiIndex.stream (session [movie]) magnet1 "movie.mp4" (Some "bytes=0-")
    = Some (PartialContent head (Some (Num 0)) e ls)
    /\ e = Some (Num 1000000)
    /\ e <> Some (Num (Z.min (0 + 1000000 - 1) (5000000 - 1)))
    /\ cr_end head = Some (Num 1000000)
    /\ content_length head = Some (Num 1000001).
Proof.
  eexists _, _, _. split; [reflexivity|]. repeat split. discriminate.
Qed.

(** C10, as the code has it.  An end position written as 0 is falsy in
    [end || ...]: for every stream request that finds its file, any file
    in [src/api/index.js] and a video file in the ZIP-aware version, with
    [start + 1,000,000] and the file length among the integers up to 2^53,
    the handler computes the same end as for an omitted end position,
    [min(start + 1,000,000, length - 1)], and answers as it does to
    [bytes=<start>-].  So [bytes=0-0] is answered with more than the one
    byte asked for exactly when the file has two bytes or more; on a file
    of one byte the byte asked for is what is sent. *)
Theorem zero_end_is_omitted_end (torrents : list Torrent)
    (magnet filename : string) (file : File) (ds de : string)
    (Hres : resolves torrents magnet filename file)
    (Hds : all_chars is_digit ds = true)
    (Hde : all_chars is_digit de = true)
    (Hzero : digits_value 0 de = 0)
    (Hstart : digits_value 0 ds + 1000000 <= 2 ^ 53)
    (Hlen : 0 <= file_length file <= 2 ^ 53) :
  let start := digits_value 0 ds in
  let chunk := Z.min (start + 1000000) (file_length file - 1) in
  let head := mkHead206 (Some (Num start)) (Some (Num chunk)) (file_length file)
                        "bytes" (Some (Num (chunk - start + 1))) "video/mp4" in
  chunkEnd (Some (Num start)) (Some (Val (Num (digits_value 0 de)))) (file_length file)
  = chunkEnd (Some (Num start)) (Some Undefined) (file_length file)
  /\ chunkEnd (Some (Num start)) (Some (Val (Num (digits_value 0 de))))
       (file_length file)
     = Some (Num chunk)
  /\ ApiIndex.stream torrents magnet filename (Some ("bytes=" ++ ds ++ "-" ++ de))
     = Some (PartialContent head (Some (Num start)) (Some (Num chunk))
               (mkListeners false false))
  /\ (Part000.getFileType (file_name file) = video ->
      Part000.stream torrents magnet filename (Some ("bytes=" ++ ds ++ "-" ++ de))
      = Some (PartialContent head (Some (Num start)) (Some (Num chunk))
                (mkListeners true true)))
  /\ (start = 0 -> (1 < chunk - start + 1 <-> 2 <= file_length file)).
Proof.
  intros start chunk head. rewrite Hzero.
  pose proof (digits_value_nonneg _ 0 Hds ltac:(lia)) as S0.
  split; [reflexivity|]. split; [|split; [|split]].
  - exact (proj1 (default_window start (file_length file) (Val (Num 0)) eq_refl
                    S0 Hstart Hlen)).
  - rewrite (ApiIndex_stream_resolved _ _ _ _ _ Hres).
    rewrite (zero_range_response ds de _ _ Hds Hde Hzero Hstart Hlen).
    now apply open_range_response.
  - intros V. rewrite (Part000_stream_video _ _ _ _ _ Hres V).
    rewrite (zero_range_response ds de _ _ Hds Hde Hzero Hstart Hlen).
    now apply open_range_response.
  - subst chunk. lia.
Qed.

(** [bytes=0-0] on a file of 5,000,000 bytes: 1,000,001 bytes are sent. *)
Lemma zero_end_is_omitted_end_witness :
  ApiIndex.stream (session [movie]) magnet1 "movie.mp4" (Some "bytes=0-0")
  = Some (PartialContent
            (mkHead206 (Some (Num 0)) (Some (Num 1000000)) 5000000 "bytes"
                       (Some (Num 1000001)) "video/mp4")
            (Some (Num 0)) (Some (Num 1000000)) (mkListeners false false)).
Proof.
  assert (B0 : digits_value 0 "0" + 1000000 <= 2 ^ 53)
    by (vm_compute; discriminate).
  exact (proj1 (proj2 (proj2
    (zero_end_is_omitted_end (session [movie]) magnet1 "movie.mp4" movie "0" "0"
       movie_resolves eq_refl eq_refl eq_refl B0 movie_length_safe)))).
Defined.

(** C10 as it is stated fails: [bytes=0-0] on a file of one byte is
    answered with the bytes 0 to 0, Content-Length 1, the one byte asked
    for; and the ZIP-aware version answers [bytes=0-0] on an image with
    the whole file, without computing any end. *)
Lemma zero_end_serves_the_one_byte :
  ApiIndex.stream (session [tiny]) magnet1 "tiny.mp4" (Some "bytes=0-0")
  = Some (PartialContent
            (mkHead206 (Some (Num 0)) (Some (Num 0)) 1 "bytes" (Some (Num 1))
                       "video/mp4")
            (Some (Num 0)) (Some (Num 0)) (mkListeners false false))
  /\ Part000.stream (session [movie; poster]) magnet1 "poster.jpg" (Some "bytes=0-0")
     = Some (WholeFile "image/jpg" (mkListeners false false)).
Proof. split; reflexivity. Qed.




(** C7, as the code has it.  For a stream request that finds its file and
    has no Range header (or an empty one): [src/api/index.js] answers 400
    for every file; the ZIP-aware version answers 400 for a video file
    only, and serves every other file, images included, whole with the
    type [image/<ext>], whether a Range header is present or not. *)
Theorem missing_range_header (torrents : list Torrent)
    (magnet filename : string) (file : File)
    (Hres : resolves torrents magnet filename file) :
  ApiIndex.stream torrents magnet filename None
  = Some (Send 400 "Requires Range header")
  /\ ApiIndex.stream torrents magnet filename (Some "")
     = Some (Send 400 "Requires Range header")
  /\ (Part000.getFileType (file_name file) = video ->
      Part000.stream torrents magnet filename None
      = Some (Send 400 "Requires Range header")
      /\ Part000.stream torrents magnet filename (Some "")
         = Some (Send 400 "Requires Range header"))
  /\ (Part000.getFileType (file_name file) <> video ->
      forall range,
        Part000.stream torrents magnet filename range
        = Some (WholeFile (Part000.image_type (file_name file))
                          (mkListeners false false))).
Proof.
  split; [|split; [|split]].
  - now rewrite (ApiIndex_stream_resolved _ _ _ _ _ Hres).
  - now rewrite (ApiIndex_stream_resolved _ _ _ _ _ Hres).
  - intros V. now rewrite !(Part000_stream_video _ _ _ _ _ Hres V).
  - intros V range. now apply Part000_stream_other.
Qed.

Lemma missing_range_header_witness :
  ApiIndex.stream (session [movie; poster]) magnet1 "poster.jpg" None
  = Some (Send 400 "Requires Range header").
Proof.
  exact (proj1 (missing_range_header (session [movie; poster]) magnet1 "poster.jpg"
                  poster poster_resolves)).
Defined.

(** C7 as the specification states it fails: the ZIP-aware version serves
    an image whole, with the default status, when no Range header is
    sent. *)
Lemma image_served_without_range :
  Part000.getFileType "poster.jpg" = image
  /\ Part000.stream (session [movie; poster]) magnet1 "poster.jpg" None
     = Some (WholeFile "image/jpg" (mkListeners false false))
  /\ Part000.stream (session [movie; poster]) magnet1 "poster.jpg" None
     <> Some (Send 400 "Requires Range header").
Proof.
  split; [reflexivity|]. split; [reflexivity|].
  intros H. vm_compute in H. discriminate H.
Qed.

(** ** Disconnects *)





(** ** The catalog *)

Lemma FileType_eqb_eq (a b : FileType) : FileType_eqb a b = true <-> a = b.
Proof. destruct a, b; simpl; split; congruence. Qed.

Lemma is_media_spec (t : FileType) : is_media t = true <-> t = video \/ t = image.
Proof. destruct t; simpl; split; intros H; try tauto; try discriminate;
       destruct H; discriminate. Qed.

Lemma on_entry_eq (zipFile : File) (acc : list Entry) (entry : ZipEntry) :
  Part000.on_entry zipFile acc entry
  = (acc ++ if inner_media entry then [inner_entry zipFile entry] else [])%list.
Proof.
  unfold Part000.on_entry, inner_media, is_media, inner_entry.
  destruct (endsWith_slash (fileName entry)); simpl; [now rewrite app_nil_r|].
  destruct (_ || _); [reflexivity | now rewrite app_nil_r].
Qed.

Lemma zip_events_end (zipFile : File) (entries : list ZipEntry) (acc : list Entry) :
  Part000.zip_events zipFile entries ZipEnd acc
  = Resolved (acc ++ expand_spec zipFile entries)%list.
Proof.
  revert acc; induction entries as [|entry entries IH]; intros acc; simpl.
  - unfold expand_spec. simpl. now rewrite app_nil_r.
  - rewrite IH, on_entry_eq, <- app_assoc. unfold expand_spec. simpl.
    now destruct (inner_media entry).
Qed.

Lemma zip_events_error (zipFile : File) (entries : list ZipEntry) (err : string)
    (acc : list Entry) :
  Part000.zip_events zipFile entries (ZipError err) acc = NeverSettled err.
Proof.
  revert acc; induction entries as [|entry entries IH]; intros acc; simpl;
    [reflexivity | apply IH].
Qed.

Lemma expand_spec_In (zipFile : File) (entries : list ZipEntry) (x : Entry) :
  In x (expand_spec zipFile entries) <->
  exists entry,
    In entry entries
    /\ endsWith_slash (fileName entry) = false
    /\ (Part000.getFileType (fileName entry) = video
        \/ Part000.getFileType (fileName entry) = image)
    /\ x = mkEntry (fileName entry) (uncompressedSize entry)
                   (file_path zipFile ++ "/" ++ fileName entry)
                   (Part000.getFileType (fileName entry)).
Proof.
  unfold expand_spec. rewrite in_map_iff. split.
  - intros (entry & <- & I). apply filter_In in I as [I M].
    unfold inner_media in M. apply andb_true_iff in M as [D K].
    apply negb_true_iff in D. apply is_media_spec in K.
    exists entry. repeat split; assumption.
  - intros (entry & I & D & K & ->). exists entry. split; [reflexivity|].
    apply filter_In. split; [exact I|]. unfold inner_media.
    rewrite D. simpl. now apply is_media_spec.
Qed.

(** Where the read of an archive is answered: for an archive that is read
    and opened and whose entries run to the ['end'] event, the expander
    resolves with exactly the entries that
    are no directories (names not ending in ['/']) and classify as video or
    image, in the order of the archive, each with its uncompressed size as
    length and [<archive path>/<entry name>] as path. *)
Theorem extractZip_spec (zipFile : File) (entries : list ZipEntry)
    (Hopen : file_zip zipFile = ZipOpened entries ZipEnd) :
  Part000.extractZip zipFile = Resolved (expand_spec zipFile entries)
  /\ (forall x,
         In x (expand_spec zipFile entries) <->
         exists entry,
           In entry entries
           /\ endsWith_slash (fileName entry) = false
           /\ (Part000.getFileType (fileName entry) = video
               \/ Part000.getFileType (fileName entry) = image)
           /\ x = mkEntry (fileName entry) (uncompressedSize entry)
                          (file_path zipFile ++ "/" ++ fileName entry)
                          (Part000.getFileType (fileName entry)))
  /\ Forall (fun x => e_type x = video \/ e_type x = image)
            (expand_spec zipFile entries).
Proof.
  split; [|split].
  - unfold Part000.extractZip. rewrite Hopen. apply zip_events_end.
  - apply expand_spec_In.
  - apply Forall_forall. intros x I.
    apply expand_spec_In in I as (entry & _ & _ & K & ->). exact K.
Qed.

(** An archive with [movie.mp4], a directory entry, [poster.jpg] and a
    text file: two inner entries, video and image. *)
Lemma extractZip_spec_witness :
  Part000.extractZip bundle
  = Resolved [mkEntry "movie.mp4" 700 "sample/bundle.zip/movie.mp4" video;
              mkEntry "poster.jpg" 55 "sample/bundle.zip/poster.jpg" image].
Proof.
  exact (proj1 (extractZip_spec bundle
                  [mkZipEntry "movie.mp4" 700; mkZipEntry "extras/" 0;
                   mkZipEntry "poster.jpg" 55; mkZipEntry "readme.md" 9] eq_refl)).
Defined.

(** An ['error'] event of the archive finds no listener: the promise of
    the expander never settles. *)
Lemma extractZip_error_event (zipFile : File) (entries : list ZipEntry)
    (err : string) :
  file_zip zipFile = ZipOpened entries (ZipError err) ->
  Part000.extractZip zipFile = NeverSettled err.
Proof.
  intros H. unfold Part000.extractZip. rewrite H. apply zip_events_error.
Qed.

(** The catalog of [src/api/index.js] holds video and image entries only. *)
Lemma ApiIndex_getFiles_media (torrent : Torrent) (l : list Entry) :
  ApiIndex.getFiles torrent = Resolved l ->
  Forall (fun x => e_type x = video \/ e_type x = image) l.
Proof.
  unfold ApiIndex.getFiles. intros [= <-]. apply Forall_forall. intros x I.
  apply filter_In in I as [_ M]. now apply is_media_spec.
Qed.

(** The catalog of the ZIP-aware version never lists an archive itself. *)
Lemma Part000_getFiles_loop_no_zip (fs : list File) (acc l : list Entry) :
  Forall (fun x => e_type x <> zip) acc ->
  Part000.getFiles_loop fs acc = Resolved l ->
  Forall (fun x => e_type x <> zip) l.
Proof.
  revert acc; induction fs as [|file fs IH]; intros acc A; simpl.
  - now intros [= <-].
  - destruct (FileType_eqb (Part000.getFileType (file_name file)) zip) eqn:Z.
    + destruct (Part000.extractZip file) as [ex| | |] eqn:X; try discriminate.
      apply IH. apply Forall_app. split; [exact A|].
      unfold Part000.extractZip in X.
      destruct (file_zip file) as [ | | | |entries fin]; try discriminate.
      destruct fin; [|now rewrite zip_events_error in X].
      rewrite zip_events_end in X. injection X as <-. simpl.
      apply Forall_forall. intros x I.
      apply expand_spec_In in I as (entry & _ & _ & K & ->). simpl.
      destruct K as [-> | ->]; discriminate.
    + apply IH. apply Forall_app. split; [exact A|].
      constructor; [|constructor]. simpl. intros E.
      rewrite E in Z. discriminate.
Qed.


Lemma list_files_lists (torrents : list Torrent) (add : string -> option Torrent)
    (magnet : string) (torrent : Torrent) :
  lists torrents add magnet torrent ->
  Part000.list_files torrents add magnet
  = Part000.respond (Part000.getFiles torrent)
  \/ Part000.list_files torrents add magnet
     = Part000.respond_added (Part000.getFiles torrent).
Proof.
  intros (h & E & [T | [T A]]); unfold Part000.list_files; rewrite E, T;
    [now left | right; now rewrite A].
Qed.

Lemma session_lists (fs : list File) :
  lists (session fs) (fun _ => None) magnet1 (mkTorrent hash40 fs).
Proof. exists hash40. split; [reflexivity|]. left. reflexivity. Qed.

(** ** The movie list proxy *)

Lemma filter_keep_complete (data : list Movies.Movie) :
  Forall (fun m => Movies.keep_movie m = true) (filter Movies.keep_movie data).
Proof. apply Forall_forall. intros m I. now apply filter_In in I. Qed.

Lemma cache_set_same (c : string -> option (list Movies.Movie)) (key : string)
    (movies : list Movies.Movie) :
  Movies.cache_set c key movies key = Some movies.
Proof. unfold Movies.cache_set. now rewrite String.eqb_refl. Qed.

Lemma cache_set_other (c : string -> option (list Movies.Movie)) (key k : string)
    (movies : list Movies.Movie) :
  k <> key -> Movies.cache_set c key movies k = c k.
Proof.
  intros N. unfold Movies.cache_set.
  destruct (String.eqb_spec k key); [contradiction | reflexivity].
Qed.

(** The loop stops at the first body: [k] exceptions, then a body. *)
Lemma fetch_attempts_success (net : Movies.Upstream) (url key : string)
    (data : list Movies.Movie) (k : nat) :
  forall (retries : nat) (s : Movies.Svc),
    (k < retries)%nat ->
    (forall i, (i < k)%nat ->
               exists msg, net (List.length (Movies.sent s) + i)%nat url
                           = Movies.Throws msg) ->
    net (List.length (Movies.sent s) + k)%nat url = Movies.Body data ->
    Movies.fetch_attempts net retries url key s
    = (filter Movies.keep_movie data,
       Movies.mkSvc
         (Movies.cache_set (Movies.cache s) key (filter Movies.keep_movie data))
         (Movies.sent s ++ repeat url (S k))).
Proof.
  induction k as [|k IH]; intros retries s Hk Hthrow Hbody;
    (destruct retries as [|retries]; [lia|]); simpl.
  - rewrite Nat.add_0_r in Hbody. now rewrite Hbody.
  - destruct (Hthrow 0%nat ltac:(lia)) as [msg E].
    rewrite Nat.add_0_r in E. rewrite E.
    rewrite (IH retries (Movies.mkSvc (Movies.cache s) (Movies.sent s ++ [url]))).
    + simpl. now rewrite <- app_assoc.
    + lia.
    + intros i Hi. simpl. rewrite length_app. simpl.
      destruct (Hthrow (S i) ltac:(lia)) as [m Em]. exists m.
      rewrite <- Em. f_equal. lia.
    + simpl. rewrite length_app. simpl. rewrite <- Hbody. f_equal. lia.
Qed.

(** Only exceptions: every attempt is used, nothing is cached. *)
Lemma fetch_attempts_failure (net : Movies.Upstream) (url key : string) :
  forall (retries : nat) (s : Movies.Svc),
    (forall i, (i < retries)%nat ->
               exists msg, net (List.length (Movies.sent s) + i)%nat url
                           = Movies.Throws msg) ->
    Movies.fetch_attempts net retries url key s
    = ([], Movies.mkSvc (Movies.cache s) (Movies.sent s ++ repeat url retries)).
Proof.
  induction retries as [|retries IH]; intros s Hthrow; simpl.
  - rewrite app_nil_r. now destruct s.
  - destruct (Hthrow 0%nat ltac:(lia)) as [msg E].
    rewrite Nat.add_0_r in E. rewrite E.
    rewrite (IH (Movies.mkSvc (Movies.cache s) (Movies.sent s ++ [url]))).
    + simpl. now rewrite <- app_assoc.
    + intros i Hi. simpl. rewrite length_app. simpl.
      destruct (Hthrow (S i) ltac:(lia)) as [m Em]. exists m.
      rewrite <- Em. f_equal. lia.
Qed.

(** Whatever upstream replies, the loop sends at most [retries] requests,
    all to the same URL, returns movies that pass the filter, and touches
    the cache at [key] only, where it never removes an entry. *)
Lemma fetch_attempts_shape (net : Movies.Upstream) (url key : string) :
  forall (retries : nat) (s : Movies.Svc),
    let r := Movies.fetch_attempts net retries url key s in
    (exists k, (k <= retries)%nat
               /\ Movies.sent (snd r) = (Movies.sent s ++ repeat url k)%list)
    /\ Forall (fun m => Movies.keep_movie m = true) (fst r)
    /\ (forall k', k' <> key -> Movies.cache (snd r) k' = Movies.cache s k')
    /\ (Movies.cache (snd r) key = Movies.cache s key
        \/ Movies.cache (snd r) key = Some (fst r)).
Proof.
  induction retries as [|retries IH]; intros s; simpl.
  - repeat split; [exists 0%nat; simpl; now rewrite app_nil_r| constructor | now left].
  - destruct (net (List.length (Movies.sent s)) url) as [data|msg]; simpl.
    + repeat split.
      * exists 1%nat. split; [lia | reflexivity].
      * apply filter_keep_complete.
      * intros k' N. now apply cache_set_other.
      * right. apply cache_set_same.
    + specialize (IH (Movies.mkSvc (Movies.cache s) (Movies.sent s ++ [url]))).
      simpl in IH. destruct IH as ((k & Hk & E) & F & O & K).
      repeat split; try assumption.
      exists (S k). split; [lia|]. rewrite E, <- app_assoc. reflexivity.
Qed.

Lemma fetchMovies_shape (net : Movies.Upstream) (endpoint key : string)
    (s : Movies.Svc) :
  let r := Movies.fetchMovies net endpoint key s in
  (exists k, (k <= 3)%nat
             /\ Movies.sent (snd r)
                = (Movies.sent s ++ repeat (Movies.list_url endpoint) k)%list)
  /\ (Movies.cache_complete s -> Forall (fun m => Movies.keep_movie m = true) (fst r))
  /\ (forall k', k' <> key -> Movies.cache (snd r) k' = Movies.cache s k')
  /\ (Movies.cache (snd r) key = Movies.cache s key
      \/ (Movies.cache s key = None /\ Movies.cache (snd r) key = Some (fst r))).
Proof.
  unfold Movies.fetchMovies. destruct (Movies.cache s key) as [l|] eqn:C;
    cbn [fst snd].
  - repeat split; [exists 0%nat; split; [lia | cbn [repeat]; now rewrite app_nil_r]
                  | intros I; exact (I key l C) | now left].
  - destruct (fetch_attempts_shape net (Movies.list_url endpoint) key
                Movies.MAX_RETRIES s) as (B & F & O & K).
    split; [exact B|]. split; [intros _; exact F|]. split; [exact O|].
    destruct K as [K | K]; [left; rewrite K; exact C | right; now split].
Qed.

(** X1.  [fetchMovies] on a key that is not cached asks upstream again
    after each exception and stops at the first body, within three
    attempts: after [k < 3] exceptions and then a body it has sent [k + 1]
    requests to the one URL, returns the movies of the body that have a
    truthy name, poster and rating, and caches exactly that list; a second
    call then returns the same list without any request, whatever upstream
    would answer. *)
Theorem fetchMovies_first_success (net : Movies.Upstream) (endpoint key : string)
    (s : Movies.Svc) (k : nat) (data : list Movies.Movie)
    (Hmiss : Movies.cache s key = None)
    (Hk : (k < 3)%nat)
    (Hthrow : forall i, (i < k)%nat ->
                exists msg, net (List.length (Movies.sent s) + i)%nat
                                (Movies.list_url endpoint) = Movies.Throws msg)
    (Hbody : net (List.length (Movies.sent s) + k)%nat (Movies.list_url endpoint)
             = Movies.Body data) :
  let movies := filter Movies.keep_movie data in
  let s1 := Movies.mkSvc (Movies.cache_set (Movies.cache s) key movies)
              (Movies.sent s ++ repeat (Movies.list_url endpoint) (S k)) in
  Movies.fetchMovies net endpoint key s = (movies, s1)
  /\ (forall net', Movies.fetchMovies net' endpoint key s1 = (movies, s1)).
Proof.
  intros movies s1. split.
  - unfold Movies.fetchMovies. rewrite Hmiss.
    now apply fetch_attempts_success.
  - intros net'. unfold Movies.fetchMovies. subst s1. cbn [Movies.cache].
    now rewrite cache_set_same.
Qed.

Lemma fetchMovies_first_success_witness :
  Movies.fetchMovies flaky "trending" "trending_movies" Movies.empty_svc
  = ([film],
     Movies.mkSvc (Movies.cache_set (fun _ => None) "trending_movies" [film])
       [Movies.list_url "trending"; Movies.list_url "trending"]).
Proof.
  refine (proj1 (fetchMovies_first_success flaky "trending" "trending_movies"
                   Movies.empty_svc 1 [film; untitled] eq_refl _ _ eq_refl)).
  - lia.
  - intros i Hi. exists "timeout of 15000ms exceeded".
    destruct i as [|i]; [reflexivity | lia].
Defined.

(** X2.  When the three attempts of [fetchMovies] all end in an exception,
    it has sent exactly three requests, returns the empty list and caches
    nothing: the failure is not remembered, and the next call asks
    upstream again. *)
Theorem fetchMovies_gives_up (net : Movies.Upstream) (endpoint key : string)
    (s : Movies.Svc)
    (Hmiss : Movies.cache s key = None)
    (Hthrow : forall i, (i < 3)%nat ->
                exists msg, net (List.length (Movies.sent s) + i)%nat
                                (Movies.list_url endpoint) = Movies.Throws msg) :
  let s1 := Movies.mkSvc (Movies.cache s)
              (Movies.sent s ++ repeat (Movies.list_url endpoint) 3) in
  Movies.fetchMovies net endpoint key s = ([], s1)
  /\ (forall net' data,
         net' (List.length (Movies.sent s) + 3)%nat (Movies.list_url endpoint)
         = Movies.Body data ->
         Movies.fetchMovies net' endpoint key s1
         = (filter Movies.keep_movie data,
            Movies.mkSvc
              (Movies.cache_set (Movies.cache s) key (filter Movies.keep_movie data))
              (Movies.sent s ++ repeat (Movies.list_url endpoint) 4))).
Proof.
  intros s1. split.
  - unfold Movies.fetchMovies. rewrite Hmiss.
    now apply fetch_attempts_failure.
  - intros net' data B.
    assert (L : List.length (Movies.sent s1) = (List.length (Movies.sent s) + 3)%nat).
    { subst s1. cbn [Movies.sent]. rewrite length_app, repeat_length. reflexivity. }
    unfold Movies.fetchMovies. subst s1. cbn [Movies.cache]. rewrite Hmiss.
    rewrite (fetch_attempts_success net' (Movies.list_url endpoint) key data 0).
    + cbn [Movies.cache Movies.sent]. rewrite <- app_assoc.
      now rewrite <- (repeat_app _ 3 1).
    + unfold Movies.MAX_RETRIES. lia.
    + intros i Hi. lia.
    + rewrite Nat.add_0_r, L. exact B.
Qed.

Lemma fetchMovies_gives_up_witness :
  Movies.fetchMovies down "recent" "recent_movies" Movies.empty_svc
  = ([], Movies.mkSvc (fun _ => None)
           [Movies.list_url "recent"; Movies.list_url "recent";
            Movies.list_url "recent"]).
Proof.
  refine (proj1 (fetchMovies_gives_up down "recent" "recent_movies"
                   Movies.empty_svc eq_refl _)).
  intros i _. now exists "ECONNREFUSED".
Defined.

Lemma fetchMovies_keeps (net : Movies.Upstream) (endpoint key : string)
    (s : Movies.Svc) (k : string) (l : list Movies.Movie) :
  Movies.cache s k = Some l ->
  Movies.cache (snd (Movies.fetchMovies net endpoint key s)) k = Some l.
Proof.
  intros C. destruct (fetchMovies_shape net endpoint key s) as (_ & _ & O & K).
  destruct (String.eqb_spec k key) as [->|N].
  - destruct K as [K | [K _]]; congruence.
  - now rewrite (O k N).
Qed.

Lemma refreshCache_keeps (net : Movies.Upstream) (s : Movies.Svc) (k : string)
    (l : list Movies.Movie) :
  Movies.cache s k = Some l -> Movies.cache (Movies.refreshCache net s) k = Some l.
Proof.
  intros C. unfold Movies.refreshCache.
  pose proof (fetchMovies_keeps net "trending" "trending_movies" s k l C) as C1.
  destruct (Movies.fetchMovies net "trending" "trending_movies" s) as [m1 s1].
  cbn [snd] in C1.
  pose proof (fetchMovies_keeps net "recent" "recent_movies" s1 k l C1) as C2.
  destruct (Movies.fetchMovies net "recent" "recent_movies" s1) as [m2 s2].
  exact C2.
Qed.

(** X3.  The timer job [refreshCache] refreshes nothing that is still in
    the cache: every live entry, under any key, is the same after it, and
    when both lists are cached it sends no request and leaves the state as
    it is. *)
Theorem refreshCache_keeps_live_entries (net : Movies.Upstream) (s : Movies.Svc) :
  (forall key movies,
      Movies.cache s key = Some movies ->
      Movies.cache (Movies.refreshCache net s) key = Some movies)
  /\ (forall trending recent,
         Movies.cache s "trending_movies" = Some trending ->
         Movies.cache s "recent_movies" = Some recent ->
         Movies.refreshCache net s = s).
Proof.
  split.
  - intros key movies. apply refreshCache_keeps.
  - intros trending recent T R. unfold Movies.refreshCache, Movies.fetchMovies.
    now rewrite T, R.
Qed.

Lemma movies_search_shape (net : Movies.Upstream) (query page : option string)
    (s : Movies.Svc) :
  let r := Movies.movies_search net query page s in
  (forall k l, Movies.cache s k = Some l -> Movies.cache (snd r) k = Some l)
  /\ (Movies.cache_complete s ->
      Movies.cache_complete (snd r) /\ Movies.complete_response (Some (fst r)))
  /\ (exists k, (k <= 1)%nat
                /\ exists url, Movies.sent (snd r) = (Movies.sent s ++ repeat url k)%list).
Proof.
  assert (Z : exists k, (k <= 1)%nat
                /\ exists url, Movies.sent s = (Movies.sent s ++ repeat url k)%list).
  { exists 0%nat. split; [lia|]. exists "". cbn [repeat]. now rewrite app_nil_r. }
  unfold Movies.movies_search.
  destruct query as [[|c q]|]; cbn [fst snd];
    try (split; [now intros|split; [intros I; now split | exact Z]]).
  destruct (Movies.cache s (Movies.search_key (String c q) page)) as [cached|] eqn:C;
    cbn [fst snd].
  - split; [now intros|]. split; [|exact Z]. intros I. split; [exact I|].
    exact (I _ _ C).
  - unfold Movies.axios_get.
    destruct (net _ _) as [data|msg]; cbn [fst snd Movies.cache Movies.sent].
    + split; [|split].
      * intros k l Ck. destruct (String.eqb_spec k (Movies.search_key (String c q) page))
          as [->|N]; [congruence | now rewrite cache_set_other].
      * intros I. split; [|apply filter_keep_complete].
        intros k l. unfold Movies.cache_set. cbn [Movies.cache].
        destruct (String.eqb k _); [intros [= <-]; apply filter_keep_complete | apply I].
      * exists 1%nat. split; [lia|]. now eexists.
    + split; [now intros|]. split; [intros I; now split|].
      exists 1%nat. split; [lia|]. now eexists.
Qed.

Lemma fetchMovies_complete (net : Movies.Upstream) (endpoint key : string)
    (s : Movies.Svc) :
  Movies.cache_complete s ->
  Movies.cache_complete (snd (Movies.fetchMovies net endpoint key s))
  /\ Forall (fun m => Movies.keep_movie m = true)
            (fst (Movies.fetchMovies net endpoint key s)).
Proof.
  intros I. destruct (fetchMovies_shape net endpoint key s) as (_ & F & O & K).
  split; [|exact (F I)]. intros k l.
  destruct (String.eqb_spec k key) as [->|N].
  - destruct K as [K | [_ K]]; rewrite K; [apply I | intros [= <-]; exact (F I)].
  - rewrite (O k N). apply I.
Qed.

Lemma list_route_shape (net : Movies.Upstream) (endpoint key : string)
    (s : Movies.Svc) :
  let r := match Movies.cache s key with
           | Some movies => (Movies.MJson movies, s)
           | None =>
               let (movies, s1) := Movies.fetchMovies net endpoint key s in
               (Movies.MJson movies, s1)
           end in
  (exists movies, fst r = Movies.MJson movies)
  /\ (forall k l, Movies.cache s k = Some l -> Movies.cache (snd r) k = Some l)
  /\ (Movies.cache_complete s ->
      Movies.cache_complete (snd r) /\ Movies.complete_response (Some (fst r)))
  /\ (exists k, (k <= 3)%nat
                /\ Movies.sent (snd r)
                   = (Movies.sent s ++ repeat (Movies.list_url endpoint) k)%list)
  /\ (forall movies, Movies.cache s key = Some movies -> r = (Movies.MJson movies, s)).
Proof.
  destruct (Movies.cache s key) as [cached|] eqn:C; cbn [fst snd].
  - split; [now exists cached|]. split; [now intros|]. split; [|split].
    + intros I. split; [exact I | exact (I _ _ C)].
    + exists 0%nat. split; [lia|]. cbn [repeat]. now rewrite app_nil_r.
    + now intros movies [= <-].
  - pose proof (fun k l => fetchMovies_keeps net endpoint key s k l) as Kp.
    pose proof (fetchMovies_complete net endpoint key s) as Cp.
    destruct (fetchMovies_shape net endpoint key s) as (B & _).
    destruct (Movies.fetchMovies net endpoint key s) as [movies s1]; cbn [fst snd] in *.
    split; [now exists movies|]. split; [exact Kp|]. split; [exact Cp|].
    split; [exact B | discriminate].
Qed.

Lemma serve_shape (net : Movies.Upstream) (r : Movies.Request) (s : Movies.Svc) :
  (forall k l, Movies.cache s k = Some l ->
               Movies.cache (snd (Movies.serve net r s)) k = Some l)
  /\ (Movies.cache_complete s ->
      Movies.cache_complete (snd (Movies.serve net r s))
      /\ Movies.complete_response (fst (Movies.serve net r s))).
Proof.
  destruct r as [| |query page|]; cbn [Movies.serve].
  - unfold Movies.movies_trending.
    destruct (list_route_shape net "trending" "trending_movies" s) as (_ & K & C & _).
    destruct (match Movies.cache s "trending_movies" with Some _ => _ | None => _ end)
      as [a s1]. now split.
  - unfold Movies.movies_recent.
    destruct (list_route_shape net "recent" "recent_movies" s) as (_ & K & C & _).
    destruct (match Movies.cache s "recent_movies" with Some _ => _ | None => _ end)
      as [a s1]. now split.
  - destruct (movies_search_shape net query page s) as (K & C & _).
    destruct (Movies.movies_search net query page s) as [a s1]. now split.
  - cbn [fst snd]. split; [intros k l; apply refreshCache_keeps|].
    intros I. split; [|exact Logic.I]. unfold Movies.refreshCache.
    destruct (fetchMovies_complete net "trending" "trending_movies" s I) as [I1 _].
    destruct (Movies.fetchMovies net "trending" "trending_movies" s) as [m1 s1].
    cbn [snd] in I1.
    destruct (fetchMovies_complete net "recent" "recent_movies" s1 I1) as [I2 _].
    destruct (Movies.fetchMovies net "recent" "recent_movies" s1) as [m2 s2].
    exact I2.
Qed.

(** X4.  No request replaces a live cache entry: when requests and timer
    ticks are served one after the other, whatever upstream replies, a
    list that was cached under a key is, expiry aside, still the list
    cached under it after any number of them. *)
Theorem live_entries_are_never_replaced (net : Movies.Upstream)
    (rs : list Movies.Request) (s : Movies.Svc) (key : string)
    (movies : list Movies.Movie)
    (Hlive : Movies.cache s key = Some movies) :
  Movies.cache (snd (Movies.serve_all net rs s)) key = Some movies.
Proof.
  revert s Hlive; induction rs as [|r rs IH]; intros s Hlive; [exact Hlive|].
  cbn [Movies.serve_all].
  pose proof (proj1 (serve_shape net r s) key movies Hlive) as K.
  destruct (Movies.serve net r s) as [a s1]. cbn [snd] in K.
  specialize (IH s1 K).
  destruct (Movies.serve_all net rs s1) as [l s2]. exact IH.
Qed.

Lemma live_entries_are_never_replaced_witness :
  Movies.cache
    (snd (Movies.serve_all flaky
            [Movies.Tick; Movies.GetSearch (Some "film") None; Movies.GetTrending]
            (Movies.mkSvc (Movies.cache_set (fun _ => None) "trending_movies" [])
                          [])))
    "trending_movies"
  = Some [].
Proof.
  exact (live_entries_are_never_replaced flaky
           [Movies.Tick; Movies.GetSearch (Some "film") None; Movies.GetTrending]
           (Movies.mkSvc (Movies.cache_set (fun _ => None) "trending_movies" []) [])
           "trending_movies" [] eq_refl).
Defined.

Lemma serve_all_complete (net : Movies.Upstream) (rs : list Movies.Request) :
  forall s,
    Movies.cache_complete s ->
    Forall Movies.complete_response (fst (Movies.serve_all net rs s))
    /\ Movies.cache_complete (snd (Movies.serve_all net rs s)).
Proof.
  induction rs as [|r rs IH]; intros s I; cbn [Movies.serve_all].
  - split; [constructor | exact I].
  - destruct (proj2 (serve_shape net r s) I) as [I1 C1].
    destruct (Movies.serve net r s) as [a s1]. cbn [fst snd] in I1, C1.
    destruct (IH s1 I1) as [F I2].
    destruct (Movies.serve_all net rs s1) as [l s2]. cbn [fst snd] in *.
    split; [now constructor | exact I2].
Qed.

(** X5.  Started with an empty cache, the service never sends an incomplete
    movie: in every JSON response to any sequence of requests served one
    after the other, whatever upstream replies, every movie has a truthy
    name, poster and rating, also when the response comes from the
    cache. *)
Theorem responses_hold_complete_movies (net : Movies.Upstream)
    (rs : list Movies.Request) :
  Forall Movies.complete_response (fst (Movies.serve_all net rs Movies.empty_svc))
  /\ Movies.cache_complete (snd (Movies.serve_all net rs Movies.empty_svc)).
Proof. apply serve_all_complete. intros key movies. discriminate. Qed.

(** X6.  [/movies/trending] and [/movies/recent] never answer with an error
    status: the response is a JSON list, after at most three upstream
    requests and after none when the list is cached; when upstream is down
    it is the empty list, sent with the default status. *)
Theorem list_routes_always_answer (net : Movies.Upstream) (s : Movies.Svc) :
  (exists movies k,
      fst (Movies.movies_trending net s) = Movies.MJson movies
      /\ (k <= 3)%nat
      /\ Movies.sent (snd (Movies.movies_trending net s))
         = (Movies.sent s ++ repeat (Movies.list_url "trending") k)%list)
  /\ (exists movies k,
         fst (Movies.movies_recent net s) = Movies.MJson movies
         /\ (k <= 3)%nat
         /\ Movies.sent (snd (Movies.movies_recent net s))
            = (Movies.sent s ++ repeat (Movies.list_url "recent") k)%list)
  /\ (forall movies,
         Movies.cache s "trending_movies" = Some movies ->
         Movies.movies_trending net s = (Movies.MJson movies, s))
  /\ (forall movies,
         Movies.cache s "recent_movies" = Some movies ->
         Movies.movies_recent net s = (Movies.MJson movies, s))
  /\ fst (Movies.movies_trending down Movies.empty_svc) = Movies.MJson [].
Proof.
  destruct (list_route_shape net "trending" "trending_movies" s)
    as ((m1 & E1) & _ & _ & (k1 & B1 & S1) & H1).
  destruct (list_route_shape net "recent" "recent_movies" s)
    as ((m2 & E2) & _ & _ & (k2 & B2 & S2) & H2).
  split; [now exists m1, k1|]. split; [now exists m2, k2|].
  split; [exact H1|]. split; [exact H2 | reflexivity].
Qed.

(** X7.  A search is tried once and a failure is not remembered: when the
    query is given, its key is not cached and the request ends in an
    exception, the handler answers 500 after that single request and
    leaves the cache as it was, so the same search asks upstream again
    and, on a body, answers with its filtered movies and caches them.
    Without a query the answer is 400, with no request at all. *)
Theorem search_failure_is_not_cached (net : Movies.Upstream) (query : string)
    (page : option string) (s : Movies.Svc) (msg : string)
    (Hquery : query <> EmptyString)
    (Hmiss : Movies.cache s (Movies.search_key query page) = None)
    (Hthrow : net (List.length (Movies.sent s)) (Movies.search_url query page)
              = Movies.Throws msg) :
  let s1 := Movies.mkSvc (Movies.cache s)
              (Movies.sent s ++ [Movies.search_url query page]) in
  Movies.movies_search net (Some query) page s
  = (Movies.MError 500 "Error fetching search results.", s1)
  /\ (forall net' data,
         net' (S (List.length (Movies.sent s))) (Movies.search_url query page)
         = Movies.Body data ->
         Movies.movies_search net' (Some query) page s1
         = (Movies.MJson (filter Movies.keep_movie data),
            Movies.mkSvc
              (Movies.cache_set (Movies.cache s) (Movies.search_key query page)
                 (filter Movies.keep_movie data))
              (Movies.sent s ++ [Movies.search_url query page;
                                 Movies.search_url query page])))
  /\ Movies.movies_search net None page s
     = (Movies.MError 400 "Query is required!", s)
  /\ Movies.movies_search net (Some "") page s
     = (Movies.MError 400 "Query is required!", s).
Proof.
  intros s1. destruct query as [|c q]; [contradiction|].
  split; [|split; [|split; reflexivity]].
  - unfold Movies.movies_search, Movies.axios_get. now rewrite Hmiss, Hthrow.
  - intros net' data B. unfold Movies.movies_search, Movies.axios_get.
    subst s1. cbn [Movies.cache Movies.sent]. rewrite Hmiss.
    rewrite length_app. cbn [List.length]. rewrite Nat.add_1_r, B.
    cbn [Movies.cache Movies.sent]. now rewrite <- app_assoc.
Qed.

Lemma search_failure_is_not_cached_witness :
  Movies.movies_search flaky (Some "film") (Some "2") Movies.empty_svc
  = (Movies.MError 500 "Error fetching search results.",
     Movies.mkSvc (fun _ => None) [Movies.search_url "film" (Some "2")]).
Proof.
  exact (proj1 (search_failure_is_not_cached flaky "film" (Some "2")
                  Movies.empty_svc "timeout of 15000ms exceeded"
                  ltac:(discriminate) eq_refl eq_refl)).
Defined.

(** X8.  The cache key [search_<query>_<page>] does not separate query
    and page: two searches with the same key share one entry, so after the
    first was answered from upstream the second is answered with the
    movies of the first and no request is sent for it. *)
Theorem search_key_is_shared (net : Movies.Upstream) (query query' : string)
    (page page' : option string) (s : Movies.Svc) (data : list Movies.Movie)
    (Hquery : query <> EmptyString)
    (Hquery' : query' <> EmptyString)
    (Hkey : Movies.search_key query page = Movies.search_key query' page')
    (Hmiss : Movies.cache s (Movies.search_key query page) = None)
    (Hbody : net (List.length (Movies.sent s)) (Movies.search_url query page)
             = Movies.Body data) :
  let movies := filter Movies.keep_movie data in
  let s1 := Movies.mkSvc
              (Movies.cache_set (Movies.cache s) (Movies.search_key query page) movies)
              (Movies.sent s ++ [Movies.search_url query page]) in
  Movies.movies_search net (Some query) page s = (Movies.MJson movies, s1)
  /\ (forall net', Movies.movies_search net' (Some query') page' s1
                   = (Movies.MJson movies, s1)).
Proof.
  intros movies s1.
  destruct query as [|c q]; [contradiction|].
  destruct query' as [|c' q']; [contradiction|].
  split.
  - unfold Movies.movies_search, Movies.axios_get. now rewrite Hmiss, Hbody.
  - intros net'. unfold Movies.movies_search. rewrite <- Hkey.
    subst s1. cbn [Movies.cache]. now rewrite cache_set_same.
Qed.

(** The searches for ["a_1"] on page ["2"] and for ["a"] on page ["1_2"]
    differ and share the key [search_a_1_2]. *)
Lemma search_key_is_shared_witness :
  ("a_1", Some "2") <> ("a", Some "1_2")
  /\ Movies.search_url "a_1" (Some "2") <> Movies.search_url "a" (Some "1_2")
  /\ Movies.movies_search down (Some "a") (Some "1_2")
       (snd (Movies.movies_search (fun _ _ => Movies.Body [film]) (Some "a_1")
               (Some "2") Movies.empty_svc))
     = (Movies.MJson [film],
        Movies.mkSvc (Movies.cache_set (fun _ => None) "search_a_1_2" [film])
                     [Movies.search_url "a_1" (Some "2")]).
Proof.
  split; [discriminate|]. split; [intros H; vm_compute in H; discriminate H|].
  exact (proj2 (search_key_is_shared (fun _ _ => Movies.Body [film]) "a_1" "a"
                  (Some "2") (Some "1_2") Movies.empty_svc [film]
                  ltac:(discriminate) ltac:(discriminate) eq_refl eq_refl eq_refl)
               down).
Defined.

Lemma search_key_starts (query : string) (page : option string) :
  Movies.search_key query page <> "trending_movies"
  /\ Movies.search_key query page <> "recent_movies".
Proof. split; discriminate. Qed.

(** X9.  A search reads and writes the cache under its own key only, and
    that key is never the one of the trending or of the recent list: the
    two lists are cached the same before and after any search, and every
    other key but the search's own as well. *)
Theorem search_leaves_the_lists_alone (net : Movies.Upstream)
    (query page : option string) (s : Movies.Svc) :
  Movies.cache (snd (Movies.movies_search net query page s)) "trending_movies"
  = Movies.cache s "trending_movies"
  /\ Movies.cache (snd (Movies.movies_search net query page s)) "recent_movies"
     = Movies.cache s "recent_movies"
  /\ (forall q key,
         query = Some q ->
         key <> Movies.search_key q page ->
         Movies.cache (snd (Movies.movies_search net query page s)) key
         = Movies.cache s key).
Proof.
  assert (G : forall key,
             (forall q, query = Some q -> key <> Movies.search_key q page) ->
             Movies.cache (snd (Movies.movies_search net query page s)) key
             = Movies.cache s key).
  { intros key N. unfold Movies.movies_search, Movies.axios_get.
    destruct query as [[|c q]|]; try reflexivity.
    destruct (Movies.cache s _); [reflexivity|].
    destruct (net _ _); cbn [snd Movies.cache]; [|reflexivity].
    apply cache_set_other. now apply N. }
  split; [|split].
  - apply G. intros q _ E. symmetry in E. now apply (search_key_starts q page) in E.
  - apply G. intros q _ E. symmetry in E. now apply (search_key_starts q page) in E.
  - intros q key -> N. apply G. now intros q' [= <-].
Qed.

(** ** More on the stream handlers *)

Lemma closed_range_response (ds de : string) (fileSize : Z) (ls : Listeners) :
  all_chars is_digit ds = true ->
  all_chars is_digit de = true ->
  digits_value 0 de <> 0 ->
  digits_value 0 ds <= 2 ^ 53 ->
  digits_value 0 de < 2 ^ 53 ->
  range_response ls fileSize (Some ("bytes=" ++ ds ++ "-" ++ de))
  = Some (PartialContent
            (mkHead206 (Some (Num (digits_value 0 ds)))
               (Some (Num (digits_value 0 de))) fileSize "bytes"
               (Some (Num (digits_value 0 de - digits_value 0 ds + 1))) "video/mp4")
            (Some (Num (digits_value 0 ds))) (Some (Num (digits_value 0 de))) ls).
Proof.
  intros Hds Hde Hnz Bs Be.
  pose proof (digits_value_nonneg _ 0 Hds ltac:(lia)) as S0.
  pose proof (digits_value_nonneg _ 0 Hde ltac:(lia)) as E0.
  rewrite (range_response_parsed ls fileSize _ _ _ (bytes_nonempty _)
             (parse_closed_range ds de Hds Hde Bs ltac:(lia))).
  unfold contentLength. rewrite (chunkEnd_truthy _ _ _ Hnz). cbn [js_sub].
  change (2 ^ 53) with 9007199254740992 in Bs, Be.
  rewrite js_num_safe by (change (2 ^ 53) with 9007199254740992; lia).
  cbn [js_add].
  rewrite js_num_safe by (change (2 ^ 53) with 9007199254740992; lia).
  reflexivity.
Qed.

(** X10.  An end position that is written out and is not 0 is used as it
    is, in the 206 head and for the read, whatever the length of the file
    and wherever the start lies: it is not clamped to [length - 1], and
    the Content-Length is [end - start + 1].  This holds for positions
    below 2^53, on which doubles are exact, for every file in
    [src/api/index.js] and for video files in the ZIP-aware version. *)
Theorem explicit_end_is_used_as_given (torrents : list Torrent)
    (magnet filename : string) (file : File) (ds de : string)
    (Hres : resolves torrents magnet filename file)
    (Hds : all_chars is_digit ds = true)
    (Hde : all_chars is_digit de = true)
    (Hnz : digits_value 0 de <> 0)
    (Hstart : digits_value 0 ds <= 2 ^ 53)
    (Hend : digits_value 0 de < 2 ^ 53) :
  let start := digits_value 0 ds in
  let e := digits_value 0 de in
  let head := mkHead206 (Some (Num start)) (Some (Num e)) (file_length file) "bytes"
                        (Some (Num (e - start + 1))) "video/mp4" in
  ApiIndex.stream torrents magnet filename (Some ("bytes=" ++ ds ++ "-" ++ de))
  = Some (PartialContent head (Some (Num start)) (Some (Num e))
            (mkListeners false false))
  /\ (Part000.getFileType (file_name file) = video ->
      Part000.stream torrents magnet filename (Some ("bytes=" ++ ds ++ "-" ++ de))
      = Some (PartialContent head (Some (Num start)) (Some (Num e))
                (mkListeners true true))).
Proof.
  intros start e head. split.
  - rewrite (ApiIndex_stream_resolved _ _ _ _ _ Hres).
    now apply closed_range_response.
  - intros V. rewrite (Part000_stream_video _ _ _ _ _ Hres V).
    now apply closed_range_response.
Qed.

(** [bytes=100-199] on a file of 5,000,000 bytes, and [bytes=0-9999999],
    whose end is beyond the file. *)
Lemma explicit_end_is_used_as_given_witness :
  ApiIndex.stream (session [movie]) magnet1 "movie.mp4" (Some "bytes=100-199")
  = Some (PartialContent
            (mkHead206 (Some (Num 100)) (Some (Num 199)) 5000000 "bytes"
                       (Some (Num 100)) "video/mp4")
            (Some (Num 100)) (Some (Num 199)) (mkListeners false false))
  /\ ApiIndex.stream (session [movie]) magnet1 "movie.mp4" (Some "bytes=0-9999999")
     = Some (PartialContent
               (mkHead206 (Some (Num 0)) (Some (Num 9999999)) 5000000 "bytes"
                          (Some (Num 10000000)) "video/mp4")
               (Some (Num 0)) (Some (Num 9999999)) (mkListeners false false)).
Proof.
  assert (N1 : digits_value 0 "199" <> 0) by discriminate.
  assert (N2 : digits_value 0 "9999999" <> 0) by discriminate.
  assert (S1 : digits_value 0 "100" <= 2 ^ 53) by (vm_compute; discriminate).
  assert (S2 : digits_value 0 "0" <= 2 ^ 53) by (vm_compute; discriminate).
  assert (E1 : digits_value 0 "199" < 2 ^ 53) by reflexivity.
  assert (E2 : digits_value 0 "9999999" < 2 ^ 53) by reflexivity.
  split.
  - exact (proj1 (explicit_end_is_used_as_given (session [movie]) magnet1 "movie.mp4"
                    movie "100" "199" movie_resolves eq_refl eq_refl N1 S1 E1)).
  - exact (proj1 (explicit_end_is_used_as_given (session [movie]) magnet1 "movie.mp4"
                    movie "0" "9999999" movie_resolves eq_refl eq_refl N2 S2 E2)).
Defined.

(** X11.  A suffix range [bytes=-N], which asks for the last [N] bytes, is
    read as start 0 and end [N]: for [N] below 2^53 and not 0, the handler
    sends the first [N + 1] bytes of the file, for every file in
    [src/api/index.js] and for video files in the ZIP-aware version. *)
Theorem suffix_range_is_a_prefix (torrents : list Torrent)
    (magnet filename : string) (file : File) (de : string)
    (Hres : resolves torrents magnet filename file)
    (Hde : all_chars is_digit de = true)
    (Hnz : digits_value 0 de <> 0)
    (Hend : digits_value 0 de < 2 ^ 53) :
  let n := digits_value 0 de in
  let head := mkHead206 (Some (Num 0)) (Some (Num n)) (file_length file) "bytes"
                        (Some (Num (n + 1))) "video/mp4" in
  ApiIndex.stream torrents magnet filename (Some ("bytes=-" ++ de))
  = Some (PartialContent head (Some (Num 0)) (Some (Num n)) (mkListeners false false))
  /\ (Part000.getFileType (file_name file) = video ->
      Part000.stream torrents magnet filename (Some ("bytes=-" ++ de))
      = Some (PartialContent head (Some (Num 0)) (Some (Num n))
                (mkListeners true true))).
Proof.
  intros n head.
  assert (R : forall ls,
             range_response ls (file_length file) (Some ("bytes=-" ++ de))
             = Some (PartialContent head (Some (Num 0)) (Some (Num n)) ls)).
  { intros ls.
    rewrite (closed_range_response "" de _ ls eq_refl Hde Hnz
               ltac:(vm_compute; discriminate) Hend).
    subst head n. cbn [digits_value]. do 3 f_equal. do 2 f_equal. lia. }
  split.
  - rewrite (ApiIndex_stream_resolved _ _ _ _ _ Hres). apply R.
  - intros V. rewrite (Part000_stream_video _ _ _ _ _ Hres V). apply R.
Qed.

Lemma suffix_range_is_a_prefix_witness :
  ApiIndex.stream (session [movie]) magnet1 "movie.mp4" (Some "bytes=-500")
  = Some (PartialContent
            (mkHead206 (Some (Num 0)) (Some (Num 500)) 5000000 "bytes"
                       (Some (Num 501)) "video/mp4")
            (Some (Num 0)) (Some (Num 500)) (mkListeners false false)).
Proof.
  assert (N : digits_value 0 "500" <> 0) by discriminate.
  assert (E : digits_value 0 "500" < 2 ^ 53) by reflexivity.
  exact (proj1 (suffix_range_is_a_prefix (session [movie]) magnet1 "movie.mp4" movie
                  "500" movie_resolves eq_refl N E)).
Defined.

(** X12.  With the end position left out, [start + 1,000,000] and the file
    length among the integers up to 2^53, and a start inside the file, the
    response stays inside the file: the end lies between the start and
    [length - 1], the Content-Length between 1 and 1,000,001, and the
    window either is full or reaches the last byte.  With a start at or
    after the end of the file the end is [length - 1] and the
    Content-Length is not positive. *)
Theorem default_window_bounds (torrents : list Torrent)
    (magnet filename : string) (file : File) (ds : string)
    (Hres : resolves torrents magnet filename file)
    (Hds : all_chars is_digit ds = true)
    (Hstart : digits_value 0 ds + 1000000 <= 2 ^ 53)
    (Hlen : 0 <= file_length file <= 2 ^ 53) :
  exists e n,
    ApiIndex.stream torrents magnet filename (Some ("bytes=" ++ ds ++ "-"))
    = Some (PartialContent
              (mkHead206 (Some (Num (digits_value 0 ds))) (Some (Num e))
                         (file_length file) "bytes" (Some (Num n)) "video/mp4")
              (Some (Num (digits_value 0 ds))) (Some (Num e))
              (mkListeners false false))
    /\ (Part000.getFileType (file_name file) = video ->
        Part000.stream torrents magnet filename (Some ("bytes=" ++ ds ++ "-"))
        = Some (PartialContent
                  (mkHead206 (Some (Num (digits_value 0 ds))) (Some (Num e))
                             (file_length file) "bytes" (Some (Num n)) "video/mp4")
                  (Some (Num (digits_value 0 ds))) (Some (Num e))
                  (mkListeners true true)))
    /\ (digits_value 0 ds < file_length file ->
        digits_value 0 ds <= e <= file_length file - 1
        /\ 1 <= n <= 1000001
        /\ (n = 1000001 \/ e = file_length file - 1))
    /\ (file_length file <= digits_value 0 ds ->
        e = file_length file - 1 /\ n <= 0).
Proof.
  exists (Z.min (digits_value 0 ds + 1000000) (file_length file - 1)).
  exists (Z.min (digits_value 0 ds + 1000000) (file_length file - 1)
          - digits_value 0 ds + 1).
  split; [|split; [|split]].
  - rewrite (ApiIndex_stream_resolved _ _ _ _ _ Hres).
    now apply open_range_response.
  - intros V. rewrite (Part000_stream_video _ _ _ _ _ Hres V).
    now apply open_range_response.
  - intros H. lia.
  - intros H. lia.
Qed.

Lemma default_window_bounds_witness :
  exists e n,
    ApiIndex.stream (session [movie]) magnet1 "movie.mp4" (Some "bytes=4999000-")
    = Some (PartialContent
              (mkHead206 (Some (Num 4999000)) (Some (Num e)) 5000000 "bytes"
                         (Some (Num n)) "video/mp4")
              (Some (Num 4999000)) (Some (Num e)) (mkListeners false false))
    /\ 4999000 <= e <= 4999999 /\ 1 <= n <= 1000001.
Proof.
  assert (B : digits_value 0 "4999000" + 1000000 <= 2 ^ 53)
    by (vm_compute; discriminate).
  assert (I : digits_value 0 "4999000" < file_length movie) by reflexivity.
  destruct (default_window_bounds (session [movie]) magnet1 "movie.mp4" movie
              "4999000" movie_resolves eq_refl B movie_length_safe)
    as (e & n & A & _ & W & _).
  exists e, n. split; [exact A|].
  destruct (W I) as (B1 & B2 & _).
  split; [exact B1 | exact B2].
Defined.

Lemma is_digit_not_b (c : ascii) : is_digit c = true -> Ascii.eqb "b" c = false.
Proof. by_ascii_cases c. Qed.

Lemma remove_first_no_b (s : string) :
  any_char (Ascii.eqb "b") s = false -> remove_first "bytes=" s = s.
Proof.
  induction s as [|c s IH]; [reflexivity|].
  cbn [any_char]. intros H. apply orb_false_iff in H as [Hc Hs].
  change (remove_first "bytes=" (String c s))
    with (match (if Ascii.eqb "b" c then strip_prefix "ytes=" s else None) with
          | Some rest => rest
          | None => String c (remove_first "bytes=" s)
          end).
  rewrite Hc, (IH Hs). reflexivity.
Qed.

Lemma any_char_append (p : ascii -> bool) (a b : string) :
  any_char p (a ++ b) = any_char p a || any_char p b.
Proof.
  induction a as [|c a IH]; [reflexivity|].
  cbn [any_char append]. now rewrite IH, orb_assoc.
Qed.

Lemma digits_no_b (ds : string) :
  all_chars is_digit ds = true -> any_char (Ascii.eqb "b") ds = false.
Proof.
  induction ds as [|c ds IH]; [reflexivity|]. cbn [all_chars any_char]. intros H.
  apply andb_true_iff in H as [Hc Hd].
  now rewrite (is_digit_not_b c Hc), (IH Hd).
Qed.

Lemma stream_by_range_response (torrents : list Torrent)
    (magnet filename : string) (a b : option string) :
  (forall ls n, range_response ls n a = range_response ls n b) ->
  ApiIndex.stream torrents magnet filename a
  = ApiIndex.stream torrents magnet filename b
  /\ Part000.stream torrents magnet filename a
     = Part000.stream torrents magnet filename b.
Proof.
  intros R. unfold ApiIndex.stream, Part000.stream.
  destruct (extractInfoHash magnet) as [h|]; [|now split].
  destruct (find_torrent torrents h) as [torrent|]; [|now split].
  destruct (find_file torrent filename) as [file|]; [|now split].
  split; [apply R|]. destruct (FileType_eqb _ _); [apply R | reflexivity].
Qed.

(** X13.  The unit of the Range header is not required: a header
    [<start>-<end>] without [bytes=] is answered exactly as
    [bytes=<start>-<end>], by both handlers and for every request. *)
Theorem range_unit_is_optional (torrents : list Torrent)
    (magnet filename : string) (ds de : string)
    (Hds : all_chars is_digit ds = true)
    (Hde : all_chars is_digit de = true) :
  ApiIndex.stream torrents magnet filename (Some (ds ++ "-" ++ de))
  = ApiIndex.stream torrents magnet filename (Some ("bytes=" ++ ds ++ "-" ++ de))
  /\ Part000.stream torrents magnet filename (Some (ds ++ "-" ++ de))
     = Part000.stream torrents magnet filename (Some ("bytes=" ++ ds ++ "-" ++ de)).
Proof.
  apply stream_by_range_response. intros ls n.
  assert (P : parse_range (ds ++ "-" ++ de)
              = parse_range ("bytes=" ++ ds ++ "-" ++ de)).
  { unfold parse_range.
    change (remove_first "bytes=" ("bytes=" ++ ds ++ "-" ++ de))
      with (ds ++ "-" ++ de)%string.
    rewrite remove_first_no_b; [reflexivity|].
    rewrite !any_char_append, (digits_no_b ds Hds), (digits_no_b de Hde).
    reflexivity. }
  unfold range_response. rewrite P.
  destruct (ds ++ "-" ++ de)%string as [|c r] eqn:E; [|reflexivity].
  destruct ds; discriminate E.
Qed.

Lemma range_unit_is_optional_witness :
  ApiIndex.stream (session [movie]) magnet1 "movie.mp4" (Some "100-199")
  = ApiIndex.stream (session [movie]) magnet1 "movie.mp4" (Some "bytes=100-199").
Proof.
  exact (proj1 (range_unit_is_optional (session [movie]) magnet1 "movie.mp4"
                  "100" "199" eq_refl eq_refl)).
Defined.

Lemma range_response_not_404 (ls : Listeners) (n : Z) (range : option string)
    (body : string) :
  range_response ls n range <> Some (Send 404 body).
Proof.
  unfold range_response.
  destruct range as [[|c r]|]; try discriminate.
  destruct (parse_range _) as [s e]. discriminate.
Qed.

(** X14.  The stream handlers look the file name up among the files of the
    torrent itself, not in the catalog: for a registered torrent the
    answer is 404 [File not found] exactly when no file of the torrent has
    that name, so an entry that [/list-files] lists from inside an archive
    cannot be streamed under its name. *)
Theorem stream_finds_torrent_files_only (torrents : list Torrent)
    (magnet filename h : string) (torrent : Torrent) (range : option string)
    (Hhash : extractInfoHash magnet = Some h)
    (Htorrent : find_torrent torrents h = Some torrent) :
  (ApiIndex.stream torrents magnet filename range = Some (Send 404 "File not found")
   <-> forall f, In f (files torrent) -> file_name f <> filename)
  /\ (Part000.stream torrents magnet filename range = Some (Send 404 "File not found")
      <-> forall f, In f (files torrent) -> file_name f <> filename).
Proof.
  assert (N : find_file torrent filename = None
              <-> forall f, In f (files torrent) -> file_name f <> filename).
  { unfold find_file. split.
    - intros E f I Ef. pose proof (find_none _ _ E f I) as X. cbn in X.
      rewrite Ef, String.eqb_refl in X. discriminate.
    - intros A. destruct (find _ _) as [f|] eqn:E; [|reflexivity].
      apply find_some in E as [I Ef]. apply String.eqb_eq in Ef.
      now elim (A f I). }
  unfold ApiIndex.stream, Part000.stream. rewrite Hhash, Htorrent.
  destruct (find_file torrent filename) as [file|] eqn:F.
  - split; (split; [|intros A; apply N in A; discriminate A]); intros E; exfalso.
    + now apply range_response_not_404 in E.
    + destruct (FileType_eqb _ _); [now apply range_response_not_404 in E
                                   | discriminate E].
  - split; (split; [intros _; now apply N | reflexivity]).
Qed.

(** The catalog of a torrent with a video file and an archive lists the
    [poster.jpg] of the archive; a stream request for it is answered 404. *)
Lemma stream_finds_torrent_files_only_witness :
  Part000.list_files (session [movie; bundle]) (fun _ => None) magnet1
  = ListJson [mkEntry "movie.mp4" 5000000 "sample/movie.mp4" video;
              mkEntry "movie.mp4" 700 "sample/bundle.zip/movie.mp4" video;
              mkEntry "poster.jpg" 55 "sample/bundle.zip/poster.jpg" image]
  /\ Part000.stream (session [movie; bundle]) magnet1 "poster.jpg" (Some "bytes=0-")
     = Some (Send 404 "File not found").
Proof.
  split; [reflexivity|].
  apply (proj2 (stream_finds_torrent_files_only (session [movie; bundle]) magnet1
                  "poster.jpg" hash40 (mkTorrent hash40 [movie; bundle])
                  (Some "bytes=0-") eq_refl eq_refl)).
  intros f [<- | [<- | []]] E; vm_compute in E; discriminate E.
Defined.

Lemma range_response_listeners (ls ls' : Listeners) (n : Z) (range : option string)
    (head : Head206) (s e : option JSNum) :
  range_response ls n range = Some (PartialContent head s e ls') -> ls' = ls.
Proof.
  unfold range_response.
  destruct range as [[|c r]|]; try discriminate.
  destruct (parse_range _) as [s0 e0].
  now intros [= _ _ _ ->].
Qed.

Lemma Part000_partial_listeners (torrents : list Torrent)
    (magnet filename : string) (range : option string) (head : Head206)
    (s e : option JSNum) (ls : Listeners) :
  Part000.stream torrents magnet filename range = Some (PartialContent head s e ls) ->
  ls = mkListeners true true.
Proof.
  unfold Part000.stream.
  destruct (extractInfoHash magnet) as [h|]; [|discriminate].
  destruct (find_torrent torrents h) as [torrent|]; [|discriminate].
  destruct (find_file torrent filename) as [file|]; [|discriminate].
  destruct (FileType_eqb _ _); [apply range_response_listeners | discriminate].
Qed.

Lemma ApiIndex_partial_listeners (torrents : list Torrent)
    (magnet filename : string) (range : option string) (head : Head206)
    (s e : option JSNum) (ls : Listeners) :
  ApiIndex.stream torrents magnet filename range = Some (PartialContent head s e ls) ->
  ls = mkListeners false false.
Proof.
  unfold ApiIndex.stream.
  destruct (extractInfoHash magnet) as [h|]; [|discriminate].
  destruct (find_torrent torrents h) as [torrent|]; [|discriminate].
  destruct (find_file torrent filename) as [file|]; [|discriminate].
  apply range_response_listeners.
Qed.

Lemma guarded_listener_is_silent (evs : list Event) (st : Live) :
  headersSent st = true -> late_status st = None -> uncaught st = false ->
  let st' := run (mkListeners true true) st evs in
  headersSent st' = true /\ late_status st' = None /\ uncaught st' = false.
Proof.
  revert st; induction evs as [|ev evs IH]; intros st H L U; [now repeat split|].
  unfold run in *. cbn [fold_left].
  assert (X : headersSent (step (mkListeners true true) st ev) = true
              /\ late_status (step (mkListeners true true) st ev) = None
              /\ uncaught (step (mkListeners true true) st ev) = false).
  { destruct ev; cbn; rewrite ?H; cbn; try destruct (destroyed st); cbn;
      repeat split; assumption || reflexivity. }
  destruct X as (H1 & L1 & U1). now apply IH.
Qed.

Lemma no_listener_is_uncaught (evs : list Event) (st : Live) :
  late_status st = None ->
  let st' := run (mkListeners false false) st evs in
  late_status st' = None
  /\ (uncaught st = true \/ In SourceError evs -> uncaught st' = true).
Proof.
  revert st; induction evs as [|ev evs IH]; intros st L.
  - split; [exact L|]. intros [U | []]. exact U.
  - unfold run in *. cbn [fold_left].
    assert (L1 : late_status (step (mkListeners false false) st ev) = None).
    { destruct ev; cbn; try destruct (destroyed st); cbn; assumption. }
    destruct (IH _ L1) as [L2 U2]. split; [exact L2|].
    intros [U | [-> | I]]; apply U2.
    + left. destruct ev; cbn; try destruct (destroyed st); cbn;
        assumption || reflexivity.
    + now left.
    + now right.
Qed.

(** X15.  After the 206 head the error listener of the ZIP-aware video
    branch never sends its 500: the head is written before the listener
    is registered, so [!res.headersSent] is false in every run and a read
    error changes nothing in the response.  In [src/api/index.js] no
    error listener exists: a read error is an uncaught ['error'] event. *)
Theorem read_error_after_the_head (torrents : list Torrent)
    (magnet filename : string) (range : option string) (evs : list Event) :
  (forall head s e ls,
      Part000.stream torrents magnet filename range
      = Some (PartialContent head s e ls) ->
      exists st,
        play (Part000.stream torrents magnet filename range) evs = Some st
        /\ headersSent st = true /\ late_status st = None /\ uncaught st = false)
  /\ (forall head s e ls,
         ApiIndex.stream torrents magnet filename range
         = Some (PartialContent head s e ls) ->
         exists st,
           play (ApiIndex.stream torrents magnet filename range) evs = Some st
           /\ late_status st = None
           /\ (In SourceError evs -> uncaught st = true)).
Proof.
  split; intros head s e ls E.
  - pose proof (Part000_partial_listeners _ _ _ _ _ _ _ _ E) as ->.
    rewrite E. cbn [play start_of]. eexists. split; [reflexivity|].
    now apply guarded_listener_is_silent.
  - pose proof (ApiIndex_partial_listeners _ _ _ _ _ _ _ _ E) as ->.
    rewrite E. cbn [play start_of]. eexists. split; [reflexivity|].
    destruct (no_listener_is_uncaught evs (mkLive true false false 0 0 None false)
                eq_refl) as [L U].
    split; [exact L|]. intros I. apply U. now right.
Qed.

(** ** More on the catalog *)

Lemma extractZip_resolved (file : File) (ex : list Entry) :
  Part000.extractZip file = Resolved ex <->
  exists entries,
    file_zip file = ZipOpened entries ZipEnd /\ ex = expand_spec file entries.
Proof.
  unfold Part000.extractZip. split.
  - destruct (file_zip file) as [ |err|err|err|entries [|err]]; try discriminate.
    + rewrite zip_events_end. intros [= <-]. now exists entries.
    + now rewrite zip_events_error.
  - intros (entries & -> & ->). now rewrite zip_events_end.
Qed.

Lemma catalog_of_zip (file : File) (entries : list ZipEntry) :
  Part000.getFileType (file_name file) = zip ->
  file_zip file = ZipOpened entries ZipEnd ->
  catalog_of file = expand_spec file entries.
Proof. intros Z O. unfold catalog_of. now rewrite Z, O. Qed.

Lemma getFiles_loop_resolved (fs : list File) :
  forall acc l,
    Part000.getFiles_loop fs acc = Resolved l ->
    l = (acc ++ flat_map catalog_of fs)%list
    /\ (forall f, In f fs -> Part000.getFileType (file_name f) = zip -> expands f).
Proof.
  induction fs as [|file fs IH]; intros acc l; cbn [Part000.getFiles_loop flat_map].
  - intros [= <-]. split; [now rewrite app_nil_r | intros f []].
  - destruct (FileType_eqb (Part000.getFileType (file_name file)) zip) eqn:Z.
    + apply FileType_eqb_eq in Z.
      destruct (Part000.extractZip file) as [ex| | |] eqn:X; try discriminate.
      apply extractZip_resolved in X as (entries & O & ->).
      intros E. destruct (IH _ _ E) as [-> A]. split.
      * rewrite (catalog_of_zip file entries Z O). now rewrite app_assoc.
      * intros f [<- | I] Zf; [now exists entries | now apply A].
    + intros E. destruct (IH _ _ E) as [-> A]. split.
      * unfold catalog_of at 2. rewrite Z. unfold top_entry.
        now rewrite <- app_assoc.
      * intros f [<- | I] Zf; [|now apply A].
        rewrite Zf in Z. discriminate.
Qed.

Lemma getFiles_loop_expands (fs : list File) :
  forall acc,
    (forall f, In f fs -> Part000.getFileType (file_name f) = zip -> expands f) ->
    Part000.getFiles_loop fs acc = Resolved (acc ++ flat_map catalog_of fs)%list.
Proof.
  induction fs as [|file fs IH]; intros acc A; cbn [Part000.getFiles_loop flat_map].
  - now rewrite app_nil_r.
  - destruct (FileType_eqb (Part000.getFileType (file_name file)) zip) eqn:Z.
    + apply FileType_eqb_eq in Z.
      destruct (A file (or_introl eq_refl) Z) as [entries O].
      rewrite (proj2 (extractZip_resolved file _) (ex_intro _ entries (conj O eq_refl))).
      rewrite IH by (intros f I; apply A; now right).
      rewrite (catalog_of_zip file entries Z O). now rewrite app_assoc.
    + rewrite IH by (intros f I; apply A; now right).
      unfold catalog_of at 2. rewrite Z. unfold top_entry. now rewrite <- app_assoc.
Qed.

(** X16.  The catalog of the ZIP-aware version is built in the listing
    order of the engine, each archive replaced in place by its inner media
    entries and every other file giving one entry; [getFiles] resolves
    exactly when every file with a ZIP extension is read, opened and runs
    to its ['end'] event. *)
Theorem catalog_is_spliced_in_order (torrent : Torrent) :
  ((exists l, Part000.getFiles torrent = Resolved l)
   <-> (forall f, In f (files torrent) ->
                  Part000.getFileType (file_name f) = zip -> expands f))
  /\ (forall l,
         Part000.getFiles torrent = Resolved l ->
         l = flat_map catalog_of (files torrent)).
Proof.
  unfold Part000.getFiles. split; [split|].
  - intros [l E]. now apply (getFiles_loop_resolved _ _ _ E).
  - intros A. eexists. now apply getFiles_loop_expands.
  - intros l E. now apply (getFiles_loop_resolved _ _ _ E).
Qed.

Lemma catalog_of_plain (file : File) (t : FileType) :
  Part000.getFileType (file_name file) = t ->
  t <> zip ->
  catalog_of file
  = [mkEntry (file_name file) (file_length file) (file_path file) t].
Proof.
  intros T N. unfold catalog_of, top_entry. rewrite T.
  destruct t; try reflexivity. now elim N.
Qed.

Lemma getFileType_versions (fileName : string) :
  ApiIndex.getFileType fileName
  = match Part000.getFileType fileName with
    | zip => other
    | t => t
    end.
Proof.
  unfold ApiIndex.getFileType, Part000.getFileType.
  destruct (includes _ _); [reflexivity|].
  destruct (includes _ _); [reflexivity|].
  now destruct (String.eqb _ _).
Qed.

(** X17.  The two versions list the same media files of a torrent where
    no archive is involved: the catalog of [src/api/index.js] is the
    catalog the ZIP-aware version gives for the files without ZIP
    extension, restricted to the video and image entries; the archives
    themselves are dropped by [src/api/index.js], not expanded. *)
Theorem api_catalog_is_the_filtered_plain_catalog (h : string) (fs : list File) :
  let plain_files :=
    filter (fun f => negb (FileType_eqb (Part000.getFileType (file_name f)) zip)) fs in
  exists l,
    Part000.getFiles (mkTorrent h plain_files) = Resolved l
    /\ ApiIndex.getFiles (mkTorrent h fs)
       = Resolved (filter (fun x => is_media (e_type x)) l).
Proof.
  intros plain_files. exists (flat_map catalog_of plain_files). split.
  - unfold Part000.getFiles. cbn [files].
    rewrite getFiles_loop_expands; [reflexivity|].
    intros f I Z. subst plain_files. apply filter_In in I as [_ N].
    rewrite Z in N. discriminate.
  - unfold ApiIndex.getFiles. cbn [files]. f_equal. subst plain_files.
    induction fs as [|f fs IH]; [reflexivity|].
    cbn [map filter]. rewrite IH. cbn [e_type].
    rewrite (getFileType_versions (file_name f)).
    destruct (Part000.getFileType (file_name f)) eqn:T;
      cbn [FileType_eqb negb orb flat_map]; try reflexivity;
      rewrite (catalog_of_plain f _ T ltac:(discriminate));
      cbn [app filter e_type is_media FileType_eqb orb]; reflexivity.
Qed.

(** ** File types and letter case *)

Lemma lower_char_sep (c : ascii) :
  Ascii.eqb (lower_char c) "/" = Ascii.eqb c "/"
  /\ Ascii.eqb (lower_char c) "." = Ascii.eqb c ".".
Proof. destruct c as [[] [] [] [] [] [] [] []]; vm_compute; now split. Qed.

Lemma lower_char_idem (c : ascii) : lower_char (lower_char c) = lower_char c.
Proof. destruct c as [[] [] [] [] [] [] [] []]; vm_compute; reflexivity. Qed.

Lemma toLowerCase_idem (s : string) : toLowerCase (toLowerCase s) = toLowerCase s.
Proof.
  induction s as [|c s IH]; [reflexivity|].
  cbn [toLowerCase]. now rewrite lower_char_idem, IH.
Qed.

Lemma get_toLowerCase (s : string) :
  forall i, String.get i (toLowerCase s) = option_map lower_char (String.get i s).
Proof.
  induction s as [|c s IH]; intros [|i]; cbn [toLowerCase String.get option_map];
    try reflexivity. apply IH.
Qed.

Lemma substring_toLowerCase (s : string) :
  forall n m, substring n m (toLowerCase s) = toLowerCase (substring n m s).
Proof.
  induction s as [|c s IH]; intros [|n] [|m];
    cbn [toLowerCase substring]; try reflexivity.
  - now rewrite IH.
  - apply IH.
  - apply IH.
Qed.

Lemma extname_loop_toLowerCase (path : string) :
  forall n st, extname_loop (toLowerCase path) n st = extname_loop path n st.
Proof.
  induction n as [|i IH]; intros st; [reflexivity|].
  cbn [extname_loop]. rewrite get_toLowerCase.
  destruct (String.get i path) as [c|]; cbn [option_map]; [|reflexivity].
  destruct (lower_char_sep c) as [-> ->].
  destruct (Ascii.eqb c "/"); [destruct (negb _); [reflexivity | apply IH] | apply IH].
Qed.

Lemma extname_toLowerCase (path : string) :
  extname (toLowerCase path) = toLowerCase (extname path).
Proof.
  unfold extname. rewrite toLowerCase_length, extname_loop_toLowerCase.
  destruct (_ || _); [reflexivity | apply substring_toLowerCase].
Qed.

(** X18.  The file type depends on the name up to the case of its
    letters: two names that are equal once their letters A to Z are
    lowered have the same type, in both versions. *)
Theorem file_type_ignores_case (name1 name2 : string)
    (Hsame : toLowerCase name1 = toLowerCase name2) :
  Part000.getFileType name1 = Part000.getFileType name2
  /\ ApiIndex.getFileType name1 = ApiIndex.getFileType name2.
Proof.
  assert (E : toLowerCase (extname name1) = toLowerCase (extname name2)).
  { now rewrite <- !extname_toLowerCase, Hsame. }
  unfold Part000.getFileType, ApiIndex.getFileType. cbv zeta. now rewrite E.
Qed.

Lemma file_type_ignores_case_witness :
  Part000.getFileType "Holiday/CLIP.Mp4" = Part000.getFileType "holiday/clip.mp4"
  /\ ApiIndex.getFileType "Holiday/CLIP.Mp4" = ApiIndex.getFileType "holiday/clip.mp4".
Proof.
  exact (file_type_ignores_case "Holiday/CLIP.Mp4" "holiday/clip.mp4" eq_refl).
Defined.

(** ** The info-hash as a key *)

Lemma lower_hex_is_hex (c : ascii) : is_lower_hex c = true -> is_hex c = true.
Proof. by_ascii_cases c. Qed.

Lemma all_lower_hex_is_hex (s : string) :
  all_chars is_lower_hex s = true -> all_chars is_hex s = true.
Proof.
  induction s as [|c s IH]; [reflexivity|]. cbn [all_chars]. intros H.
  apply andb_true_iff in H as [Hc Hs].
  now rewrite (lower_hex_is_hex c Hc), (IH Hs).
Qed.

(** X19.  The info-hash returned by the parser is canonical: a magnet
    link rebuilt from it, with anything after the digits, parses to the
    same hash again, so the key under which a torrent is looked up does
    not depend on how the link that produced it was written. *)
Theorem info_hash_is_canonical (magnet h : string)
    (Hhash : extractInfoHash magnet = Some h) :
  forall post,
    extractInfoHash ("urn:btih:" ++ h ++ post) = Some h
    /\ extractInfoHash ("magnet:?xt=urn:btih:" ++ h ++ post) = Some h.
Proof.
  intros post. unfold extractInfoHash in Hhash.
  destruct (regex_match magnet) as [d|] eqn:E; [|discriminate].
  injection Hhash as <-.
  destruct (regex_match_sound _ _ E) as (pre0 & post0 & (_ & L & H) & _).
  assert (T : forall pre, btih_token_at (pre ++ "urn:btih:" ++ toLowerCase d ++ post)
                            pre (toLowerCase d) post).
  { intros pre. split; [reflexivity|]. split; [now rewrite toLowerCase_length|].
    now apply all_lower_hex_is_hex, toLowerCase_hex. }
  unfold extractInfoHash. split.
  - change ("urn:btih:" ++ toLowerCase d ++ post)%string
      with ("" ++ "urn:btih:" ++ toLowerCase d ++ post)%string.
    rewrite (regex_match_leftmost _ "" _ _ (T "")).
    + now rewrite toLowerCase_idem.
    + intros ? ? ? _. apply Nat.le_0_l.
  - change ("magnet:?xt=urn:btih:" ++ toLowerCase d ++ post)%string
      with ("magnet:?xt=" ++ "urn:btih:" ++ toLowerCase d ++ post)%string.
    rewrite (regex_match_leftmost _ "magnet:?xt=" _ _ (T "magnet:?xt=")).
    + now rewrite toLowerCase_idem.
    + intros pre' d' post' (E' & _ & _).
      do 11 (destruct pre' as [|? pre']; [discriminate E'|]).
      cbn [String.length]. lia.
Qed.

Lemma info_hash_is_canonical_witness :
  extractInfoHash ("magnet:?xt=urn:btih:" ++ hash40 ++ "&tr=udp://tracker") = Some hash40.
Proof.
  exact (proj2 (info_hash_is_canonical magnet1 hash40 eq_refl "&tr=udp://tracker")).
Defined.

(** A run of the ZIP-aware video branch with a read error after 1,000
    bytes. *)
Lemma read_error_after_the_head_witness :
  exists st,
    play (Part000.stream (session [movie]) magnet1 "movie.mp4" (Some "bytes=0-"))
         [SourceData 1000; SourceError] = Some st
    /\ headersSent st = true /\ late_status st = None /\ uncaught st = false.
Proof.
  exact (proj1 (read_error_after_the_head (session [movie]) magnet1 "movie.mp4"
                  (Some "bytes=0-") [SourceData 1000; SourceError])
               _ _ _ _ eq_refl).
Defined.

(** ** The listing handler *)

(** X20.  A listing request for a torrent that is registered is answered
    from that torrent and involves no [client.add]: two magnet links with
    the same info-hash, however their digits are cased and whatever else
    they hold, get the same answer, whatever the engine would do with
    either link. *)
Theorem listing_of_a_registered_torrent (torrents : list Torrent)
    (add add' : string -> option Torrent) (magnet magnet' h : string)
    (torrent : Torrent)
    (Hhash : extractInfoHash magnet = Some h)
    (Hhash' : extractInfoHash magnet' = Some h)
    (Htorrent : find_torrent torrents h = Some torrent) :
  ApiIndex.list_files torrents add magnet = ApiIndex.list_files torrents add' magnet'
  /\ Part000.list_files torrents add magnet = Part000.list_files torrents add' magnet'
  /\ ApiIndex.list_files torrents add magnet
     = ApiIndex.respond (ApiIndex.getFiles torrent)
  /\ Part000.list_files torrents add magnet
     = Part000.respond (Part000.getFiles torrent).
Proof.
  unfold ApiIndex.list_files, Part000.list_files.
  rewrite Hhash, Hhash', Htorrent. now repeat split.
Qed.

Lemma listing_of_a_registered_torrent_witness :
  Part000.list_files (session [movie; poster]) (fun _ => None) magnet1
  = Part000.list_files (session [movie; poster]) (fun _ => Some (mkTorrent hash40 []))
      ("urn:btih:" ++ hash40).
Proof.
  exact (proj1 (proj2 (listing_of_a_registered_torrent (session [movie; poster])
                         (fun _ => None) (fun _ => Some (mkTorrent hash40 []))
                         magnet1 ("urn:btih:" ++ hash40) hash40
                         (mkTorrent hash40 [movie; poster])
                         eq_refl eq_refl eq_refl))).
Defined.

Lemma getFiles_loop_never_settles (fs1 fs2 : list File) (bad : File) (err : string)
    (acc : list Entry) :
  (forall f, In f fs1 -> Part000.getFileType (file_name f) = zip -> expands f) ->
  Part000.getFileType (file_name bad) = zip ->
  Part000.extractZip bad = NeverSettled err ->
  Part000.getFiles_loop (fs1 ++ bad :: fs2) acc = NeverSettled err.
Proof.
  intros Hok Hz Hbad. revert acc.
  induction fs1 as [|f fs1 IH]; intros acc; cbn [app Part000.getFiles_loop].
  - now rewrite Hz, Hbad.
  - destruct (FileType_eqb (Part000.getFileType (file_name f)) zip) eqn:Z.
    + apply FileType_eqb_eq in Z.
      destruct (Hok f (or_introl eq_refl) Z) as [entries O].
      rewrite (proj2 (extractZip_resolved f _) (ex_intro _ entries (conj O eq_refl))).
      apply IH. intros g I. apply Hok. now right.
    + apply IH. intros g I. apply Hok. now right.
Qed.

(** X21.  No listener is registered for the ['error'] event of an opened
    archive: when an archive of the session raises it while its entries
    are read, and the archives listed before it expand, the promise of
    [extractZip] is never settled, [getFiles] never returns, and the
    listing request gets no response at all, the error being thrown out of
    the emitter. *)
Theorem archive_error_event_hangs_listing (torrents : list Torrent)
    (add : string -> option Torrent) (magnet : string) (torrent : Torrent)
    (fs1 fs2 : list File) (bad : File) (entries : list ZipEntry) (err : string)
    (Hlists : lists torrents add magnet torrent)
    (Hfiles : files torrent = (fs1 ++ bad :: fs2)%list)
    (Hzip : Part000.getFileType (file_name bad) = zip)
    (Hbad : file_zip bad = ZipOpened entries (ZipError err))
    (Hok : forall f, In f fs1 -> Part000.getFileType (file_name f) = zip ->
                     expands f) :
  Part000.getFiles torrent = NeverSettled err
  /\ Part000.list_files torrents add magnet = ListNone (UncaughtException err).
Proof.
  assert (G : Part000.getFiles torrent = NeverSettled err).
  { unfold Part000.getFiles. rewrite Hfiles.
    apply getFiles_loop_never_settles; try assumption.
    now apply (extractZip_error_event bad entries). }
  split; [exact G|].
  destruct (list_files_lists _ _ _ _ Hlists) as [-> | ->]; now rewrite G.
Qed.

Lemma archive_error_event_hangs_listing_witness :
  Part000.list_files
    (session [movie;
              mkFile "cut.zip" 40 "sample/cut.zip"
                (ZipOpened [mkZipEntry "a.mp4" 7]
                           (ZipError "invalid central directory file header signature"))])
    (fun _ => None) magnet1
  = ListNone (UncaughtException "invalid central directory file header signature").
Proof.
  refine (proj2
    (archive_error_event_hangs_listing _ (fun _ => None) magnet1
       (mkTorrent hash40
          [movie;
           mkFile "cut.zip" 40 "sample/cut.zip"
             (ZipOpened [mkZipEntry "a.mp4" 7]
                (ZipError "invalid central directory file header signature"))])
       [movie] [] _ [mkZipEntry "a.mp4" 7] _
       (session_lists _) eq_refl eq_refl eq_refl _)).
  intros f [<- | []] Z. vm_compute in Z. discriminate Z.
Defined.

(** ** The expander and the engine *)

Lemma getFiles_loop_pending (fs1 fs2 : list File) (bad : File) (acc : list Entry) :
  (forall f, In f fs1 -> Part000.getFileType (file_name f) = zip -> expands f) ->
  Part000.getFileType (file_name bad) = zip ->
  Part000.extractZip bad = Pending ->
  Part000.getFiles_loop (fs1 ++ bad :: fs2) acc = Pending.
Proof.
  intros Hok Hz Hbad. revert acc.
  induction fs1 as [|f fs1 IH]; intros acc; cbn [app Part000.getFiles_loop].
  - now rewrite Hz, Hbad.
  - destruct (FileType_eqb (Part000.getFileType (file_name f)) zip) eqn:Z.
    + apply FileType_eqb_eq in Z.
      destruct (Hok f (or_introl eq_refl) Z) as [entries O].
      rewrite (proj2 (extractZip_resolved f _) (ex_intro _ entries (conj O eq_refl))).
      apply IH. intros g I. apply Hok. now right.
    + apply IH. intros g I. apply Hok. now right.
Qed.

(** C5, on the code.  [extractZip] hands a callback to
    [zipFile.createReadStream], which both [/stream] handlers of the same
    file call with an options object and use as returning the stream: the
    engine never calls the callback.  For a file handle of that engine the
    promise of the expander is never settled and it yields no entry; a
    session that holds such a ZIP file, the archives listed before it
    being expanded, gets no catalog. *)
Theorem unanswered_read_yields_nothing (torrents : list Torrent)
    (add : string -> option Torrent) (magnet : string) (torrent : Torrent)
    (fs1 fs2 : list File) (zipFile : File)
    (Hlists : lists torrents add magnet torrent)
    (Hfiles : files torrent = (fs1 ++ zipFile :: fs2)%list)
    (Hzip : Part000.getFileType (file_name zipFile) = zip)
    (Hread : file_zip zipFile = NeverAnswered)
    (Hok : forall f, In f fs1 -> Part000.getFileType (file_name f) = zip ->
                     expands f) :
  Part000.extractZip zipFile = Pending
  /\ Part000.getFiles torrent = Pending
  /\ Part000.list_files torrents add magnet = ListNone CatalogPending.
Proof.
  assert (X : Part000.extractZip zipFile = Pending).
  { unfold Part000.extractZip. now rewrite Hread. }
  assert (G : Part000.getFiles torrent = Pending).
  { unfold Part000.getFiles. rewrite Hfiles. now apply getFiles_loop_pending. }
  split; [exact X|]. split; [exact G|].
  destruct (list_files_lists _ _ _ _ Hlists) as [-> | ->]; now rewrite G.
Qed.

(** The archive with [movie.mp4] and [poster.jpg] between a video file and
    an image, as the engine hands it over. *)
Lemma unanswered_read_yields_nothing_witness :
  Part000.extractZip unanswered = Pending
  /\ Part000.list_files (session [movie; unanswered; poster]) (fun _ => None) magnet1
     = ListNone CatalogPending.
Proof.
  assert (Hok : forall f, In f [movie] ->
                  Part000.getFileType (file_name f) = zip -> expands f).
  { intros f [<- | []] Z. vm_compute in Z. discriminate Z. }
  pose proof (unanswered_read_yields_nothing (session [movie; unanswered; poster])
                (fun _ => None) magnet1 (mkTorrent hash40 [movie; unanswered; poster])
                [movie] [poster] unanswered (session_lists _) eq_refl eq_refl eq_refl
                Hok) as (X & _ & L).
  split; [exact X | exact L].
Defined.





(** ** The registry *)





(** The handlers have no find-or-create of their own: were the torrents
    of the [client.add] calls not on the registry when the next request
    is handled, every request for the info-hash would call [client.add]
    again. *)
Lemma unregistered_joins_are_repeated (engine : Engine) (c : Client) (h : string)
    (magnets : list string) :
  find_torrent (client_torrents c) h = None ->
  (forall m, In m magnets -> extractInfoHash m = Some h /\ engine m = None) ->
  resolve_all engine c magnets
  = (map Joined magnets, mkClient (client_torrents c) (added c ++ magnets)).
Proof.
  intros F. revert c F.
  induction magnets as [|m rest IH]; intros c F Hm.
  - cbn [resolve_all map]. rewrite app_nil_r. now destruct c.
  - destruct (Hm m (or_introl eq_refl)) as [E1 E2].
    cbn [resolve_all map]. unfold resolve, registered. rewrite E1, F, E2.
    rewrite app_nil_r.
    rewrite (IH (mkClient (client_torrents c) (added c ++ [m])) F)
      by (intros m' I; apply Hm; now right).
    cbn [client_torrents added]. now rewrite <- app_assoc.
Qed.


